(** * linkedin_matrix.puppet: identifier mapping, profile synchronisation
      and the puppet registry

    A shallow embedding of [src/linkedin_matrix/puppet.py].  Python strings
    are [string], dictionaries coming from the LinkedIn API are association
    lists inside [pyval], the two class-level caches are [gmap]s from keys
    to instance references, and every [async def] is a function in a small
    state-and-exception monad over the objects it mutates. *)

From Stdlib Require Import ZArith Bool.
From stdpp Require Import base option list gmap strings pretty.

Local Open Scope string_scope.
Local Open Scope Z_scope.

(** ** Python strings: length, slicing, searching *)

Module Py.

Definition len (s : string) : Z := Z.of_nat (String.length s).

Fixpoint str_take (n : nat) (s : string) : string :=
  match n, s with
  | S n', String c s' => String c (str_take n' s')
  | _, _ => EmptyString
  end.

Fixpoint str_drop (n : nat) (s : string) : string :=
  match n, s with
  | S n', String _ s' => str_drop n' s'
  | _, _ => s
  end.

(** The index a slice bound denotes: negative bounds count from the end,
    and every bound is clamped to [0, len]. *)
Definition slice_index (n i : Z) : Z :=
  if i <? 0 then Z.max 0 (n + i) else Z.min n i.

(** [s[lo:hi]]; an omitted bound is [None]. *)
Definition slice (s : string) (lo hi : option Z) : string :=
  let n := len s in
  let a := match lo with Some i => slice_index n i | None => 0 end in
  let b := match hi with Some i => slice_index n i | None => n end in
  str_take (Z.to_nat (b - a)) (str_drop (Z.to_nat a) s).

Fixpoint starts_with (p s : string) : bool :=
  match p, s with
  | EmptyString, _ => true
  | String a p', String b s' => if Ascii.eqb a b then starts_with p' s' else false
  | String _ _, EmptyString => false
  end.

(** [s.find(sub)]: the lowest index where [sub] occurs, or -1. *)
Fixpoint find_from (sub s : string) (i : Z) : Z :=
  if starts_with sub s then i
  else match s with
       | EmptyString => -1
       | String _ s' => find_from sub s' (i + 1)
       end.

Definition find (s sub : string) : Z := find_from sub s 0.

Definition str_eqb (a b : string) : bool := String.eqb a b.

End Py.

(** ** mautrix.util.simple_template.SimpleTemplate *)

Module SimpleTemplate.

(** Modelled from the spec: the class [SimpleTemplate] of the mautrix
    library, which [init_cls] instantiates and to which [get_id_from_mxid]
    and [get_mxid_from_id] delegate, is not part of the source file.  The
    spec describes it as a template with one placeholder, formatted as
    prefix + key + suffix and parsed in reverse, yielding none when the
    identifier does not have the expected shape.  The value type is [str],
    so the conversion of the parsed body is the identity. *)
Record t := Build {
  template : string;
  keyword : string;
  prefix : string;
  suffix : string
}.

Definition make (tpl kw pre suf : string) : t :=
  let index := Py.find tpl ("{" +:+ kw +:+ "}") in
  let length := Py.len kw + 2 in
  {| template := tpl;
     keyword := kw;
     prefix := pre +:+ Py.slice tpl None (Some index);
     suffix := Py.slice tpl (Some (index + length)) None +:+ suf |}.

Definition format_full (T : t) (arg : string) : string :=
  prefix T +:+ arg +:+ suffix T.

Definition parse (T : t) (val : string) : option string :=
  let prefix_ok :=
    Py.str_eqb (Py.slice val None (Some (Py.len (prefix T)))) (prefix T) in
  let has_suffix := 0 <? Py.len (suffix T) in
  let suffix_ok :=
    negb has_suffix
    || Py.str_eqb (Py.slice val (Some (- Py.len (suffix T))) None) (suffix T) in
  if prefix_ok && suffix_ok then
    let start := Py.len (prefix T) in
    let end_ := if has_suffix then - Py.len (suffix T) else Py.len val in
    Some (Py.slice val (Some start) (Some end_))
  else None.

End SimpleTemplate.

(** ** Python values, exceptions and results *)

(** What the LinkedIn API hands over as [Dict[str, Any]]: JSON-like data.
    A dictionary is an association list read at its first matching key. *)
#[warnings="-register-all"]
Inductive pyval :=
| PNone
| PBool (b : bool)
| PInt (z : Z)
| PStr (s : string)
| PList (l : list pyval)
| PDict (d : list (string * pyval)).

Inductive exn :=
| AttributeError
| KeyError
| IndexError
| TypeError
| Failure (msg : string).

Inductive result (A : Type) :=
| Ok (a : A)
| Raise (e : exn).
Arguments Ok {A} a.
Arguments Raise {A} e.

Global Instance result_ret : MRet result := fun _ a => Ok a.
Global Instance result_bind : MBind result := fun _ _ f r =>
  match r with
  | Ok a => f a
  | Raise e => Raise e
  end.

(** [str()] of a list or a dict is its [repr], which this development
    leaves open. *)
Class ContainerRepr := container_repr : pyval -> string.

Module PyVal.

(** Truth value testing, as [if v:] and [not v] do it. *)
Definition truthy (v : pyval) : bool :=
  match v with
  | PNone => false
  | PBool b => b
  | PInt z => negb (z =? 0)
  | PStr s => negb (Py.str_eqb s "")
  | PList l => match l with [] => false | _ => true end
  | PDict d => match d with [] => false | _ => true end
  end.

Fixpoint assoc (k : string) (d : list (string * pyval)) : option pyval :=
  match d with
  | [] => None
  | (k', v) :: d' => if Py.str_eqb k k' then Some v else assoc k d'
  end.

(** [v.get(k, default)]: only a dict has the method. *)
Definition get (v : pyval) (k : string) (default : pyval) : result pyval :=
  match v with
  | PDict d => Ok (from_option id default (assoc k d))
  | _ => Raise AttributeError
  end.

(** [v[k]] for a string key. *)
Definition getitem (v : pyval) (k : string) : result pyval :=
  match v with
  | PDict d => match assoc k d with Some x => Ok x | None => Raise KeyError end
  | _ => Raise TypeError
  end.

(** [v[0]]. *)
Definition getitem0 (v : pyval) : result pyval :=
  match v with
  | PList (x :: _) => Ok x
  | PList [] => Raise IndexError
  | PStr (String c _) => Ok (PStr (String c EmptyString))
  | PStr EmptyString => Raise IndexError
  | PDict _ => Raise KeyError
  | _ => Raise TypeError
  end.

(** [str(v)], which an f-string and [str.format] apply to a field. *)
Definition str {CR : ContainerRepr} (v : pyval) : string :=
  match v with
  | PNone => "None"
  | PBool true => "True"
  | PBool false => "False"
  | PInt z => pretty z
  | PStr s => s
  | PList _ | PDict _ => container_repr v
  end.

(** [a + b] where [a] is already known to be a string. *)
Definition str_add (a : string) (b : pyval) : result string :=
  match b with
  | PStr s => Ok (a +:+ s)
  | _ => Raise TypeError
  end.

End PyVal.

(** ** The regular expression [photo_id_re] *)

Module Re.

(** The constructs the pattern uses: literal text, the lazy [.*?], and the
    parentheses of one capturing group. *)
Inductive tok :=
| Chars (s : string)
| LazyAny
| Open
| Close.

Definition newline : Ascii.ascii := Ascii.ascii_of_nat 10.

Fixpoint strip (p s : string) : option string :=
  match p, s with
  | EmptyString, _ => Some s
  | String a p', String b s' => if Ascii.eqb a b then strip p' s' else None
  | String _ _, EmptyString => None
  end.

(** Backtracking matcher anchored at the current position.  [pos] counts
    the characters consumed so far, [opened] is where the group was opened
    and [g] the span of the group once closed.  [LazyAny] first tries the
    rest of the pattern and only on failure consumes one more character,
    which must not be a newline. *)
Fixpoint run (ts : list tok) (rest : string) (pos opened : nat)
    (g : option (nat * nat)) : option (option (nat * nat)) :=
  match ts with
  | [] => Some g
  | Chars l :: ts' =>
      match strip l rest with
      | Some rest' => run ts' rest' (pos + String.length l)%nat opened g
      | None => None
      end
  | Open :: ts' => run ts' rest pos pos g
  | Close :: ts' => run ts' rest pos opened (Some (opened, pos))
  | LazyAny :: ts' =>
      (fix lazy (rest : string) (pos : nat) :=
         match run ts' rest pos opened g with
         | Some r => Some r
         | None =>
             match rest with
             | String c rest' =>
                 if Ascii.eqb c newline then None else lazy rest' (S pos)
             | EmptyString => None
             end
         end) rest pos
  end.

(** [pattern.match(s)]: [None], or the match object, of which only the
    span of group 1 is kept ([None] for a group that took no part). *)
Definition match_ (ts : list tok) (s : string) : option (option (nat * nat)) :=
  run ts s 0%nat 0%nat None.

(** [m.group(1)] for a match [m] on [s]. *)
Definition group1 (s : string) (m : option (nat * nat)) : option string :=
  match m with
  | Some (a, b) => Some (Py.str_take (b - a) (Py.str_drop a s))
  | None => None
  end.

End Re.

(** [re.compile(r"https://.*?/image/(.*?)/profile-.*?")] *)
Definition photo_id_re : list Re.tok :=
  [Re.Chars "https://"; Re.LazyAny; Re.Chars "/image/";
   Re.Open; Re.LazyAny; Re.Close; Re.Chars "/profile-"; Re.LazyAny].

(** ** Configuration *)

(** The options of [Config] that this file reads.  The display name
    template is given as the function from the keyword arguments to what
    [str.format] makes of them; it may raise, as [str.format] does on a
    field it is not given. *)
Record Config := {
  homeserver_domain : string;
  bridge_username_template : string;
  bridge_displayname_preference : list string;
  bridge_displayname_template : list (string * pyval) -> result string
}.

(** [init_cls]: the class attribute [mxid_template]. *)
Definition mxid_template (config : Config) : SimpleTemplate.t :=
  SimpleTemplate.make (bridge_username_template config) "userid"
    "@" (":" +:+ homeserver_domain config).

Definition get_id_from_mxid (config : Config) (mxid : string) : option string :=
  SimpleTemplate.parse (mxid_template config) mxid.

Definition get_mxid_from_id (config : Config) (li_member_urn : string) : string :=
  SimpleTemplate.format_full (mxid_template config) li_member_urn.

(** ** Puppets *)

(** A row of the puppet table together with the transient field of the
    in-memory object. *)
Record Puppet := {
  li_member_urn : string;
  name : option string;
  photo_id : option string;
  photo_mxc : option string;
  custom_mxid : option string;
  next_batch : option string;
  name_set : bool;
  avatar_set : bool;
  is_registered : bool;
  _last_info_sync : option Z
}.

Global Instance Puppet_eq_dec : EqDecision Puppet.
Proof. solve_decision. Defined.

(** What [save] writes: every field but the transient one. *)
Definition persisted (p : Puppet) : Puppet :=
  {| li_member_urn := li_member_urn p; name := name p;
     photo_id := photo_id p; photo_mxc := photo_mxc p;
     custom_mxid := custom_mxid p; next_batch := next_batch p;
     name_set := name_set p; avatar_set := avatar_set p;
     is_registered := is_registered p; _last_info_sync := None |}.

(** [Puppet.__init__]. *)
Definition new_puppet (urn : string) (nm pid mxc : option string)
    (nset aset : bool) : Puppet :=
  {| li_member_urn := urn; name := nm; photo_id := pid; photo_mxc := mxc;
     custom_mxid := None; next_batch := None;
     name_set := nset; avatar_set := aset; is_registered := false;
     _last_info_sync := None |}.

(** The part of [user.User] that [update_info] reads. *)
Record User := { user_li_member_urn : option string }.

(** ** Collaborators of the profile synchroniser *)

Record Response := { ok : bool; content : string }.

(** One call of a collaborator, as recorded in the world's trace. *)
Inductive call :=
| SetDisplayname (nm : string)
| SetAvatarUrl (mxc : string)
| RequestsGet (url : string)
| UploadMedia (data mime : string)
| Save (row : Puppet).

(** How the collaborators answer during one synchronisation.  What a
    collaborator raises is an [Exception]. *)
Record Env := {
  now : Z;
  set_displayname : string -> result unit;
  set_avatar_url : string -> result unit;
  requests_get : string -> result Response;
  magic_from_buffer : string -> result string;
  upload_media : string -> string -> result string;
  db_save : Puppet -> result unit
}.

(** The puppet object [self], the log and the calls made so far. *)
Record World := {
  self : Puppet;
  log : list string;
  calls : list call
}.

(** A computation that may mutate the state and may raise; mutations made
    before a raise stay. *)
Definition M (S A : Type) : Type := S -> result A * S.

Global Instance M_ret {S} : MRet (M S) := fun _ a s => (Ok a, s).
Global Instance M_bind {S} : MBind (M S) := fun _ _ f m s =>
  match m s with
  | (Ok a, s') => f a s'
  | (Raise e, s') => (Raise e, s')
  end.

Definition raise {S A} (e : exn) : M S A := fun s => (Raise e, s).

Definition lift {S A} (r : result A) : M S A := fun s => (r, s).

(** [try: body except Exception: handler]. *)
Definition try_except {S A} (body : M S A) (handler : M S A) : M S A :=
  fun s =>
    match body s with
    | (Ok a, s') => (Ok a, s')
    | (Raise _, s') => handler s'
    end.

Definition get_self : M World Puppet := fun w => (Ok (self w), w).

Definition set_self (f : Puppet -> Puppet) : M World unit := fun w =>
  (Ok tt, {| self := f (self w); log := log w; calls := calls w |}).

Definition log_exception (msg : string) : M World unit := fun w =>
  (Ok tt, {| self := self w; log := log w ++ [msg]; calls := calls w |}).

(** Calling a collaborator records the call and yields its answer. *)
Definition perform {A} (c : call) (answer : result A) : M World A := fun w =>
  (answer, {| self := self w; log := log w; calls := calls w ++ [c] |}).

(** [m] leaves the projection [g] of the puppet as it found it, however it
    ends. *)
Definition keeps {A B} (g : Puppet -> B) (m : M World A) : Prop :=
  forall w r w', m w = (r, w') -> g (self w') = g (self w).

Definition with_name (v : option string) (p : Puppet) : Puppet :=
  {| li_member_urn := li_member_urn p; name := v;
     photo_id := photo_id p; photo_mxc := photo_mxc p;
     custom_mxid := custom_mxid p; next_batch := next_batch p;
     name_set := name_set p; avatar_set := avatar_set p;
     is_registered := is_registered p; _last_info_sync := _last_info_sync p |}.

Definition with_name_set (v : bool) (p : Puppet) : Puppet :=
  {| li_member_urn := li_member_urn p; name := name p;
     photo_id := photo_id p; photo_mxc := photo_mxc p;
     custom_mxid := custom_mxid p; next_batch := next_batch p;
     name_set := v; avatar_set := avatar_set p;
     is_registered := is_registered p; _last_info_sync := _last_info_sync p |}.

Definition with_photo_id (v : option string) (p : Puppet) : Puppet :=
  {| li_member_urn := li_member_urn p; name := name p;
     photo_id := v; photo_mxc := photo_mxc p;
     custom_mxid := custom_mxid p; next_batch := next_batch p;
     name_set := name_set p; avatar_set := avatar_set p;
     is_registered := is_registered p; _last_info_sync := _last_info_sync p |}.

Definition with_photo_mxc (v : option string) (p : Puppet) : Puppet :=
  {| li_member_urn := li_member_urn p; name := name p;
     photo_id := photo_id p; photo_mxc := v;
     custom_mxid := custom_mxid p; next_batch := next_batch p;
     name_set := name_set p; avatar_set := avatar_set p;
     is_registered := is_registered p; _last_info_sync := _last_info_sync p |}.

Definition with_avatar_set (v : bool) (p : Puppet) : Puppet :=
  {| li_member_urn := li_member_urn p; name := name p;
     photo_id := photo_id p; photo_mxc := photo_mxc p;
     custom_mxid := custom_mxid p; next_batch := next_batch p;
     name_set := name_set p; avatar_set := v;
     is_registered := is_registered p; _last_info_sync := _last_info_sync p |}.

Definition with_last_info_sync (v : option Z) (p : Puppet) : Puppet :=
  {| li_member_urn := li_member_urn p; name := name p;
     photo_id := photo_id p; photo_mxc := photo_mxc p;
     custom_mxid := custom_mxid p; next_batch := next_batch p;
     name_set := name_set p; avatar_set := avatar_set p;
     is_registered := is_registered p; _last_info_sync := v |}.

(** ** Profile synchroniser *)

(** [d[k] = v] on a dictionary. *)
Fixpoint dict_set (k : string) (v : pyval) (d : list (string * pyval))
    : list (string * pyval) :=
  match d with
  | [] => [(k, v)]
  | (k', v') :: d' =>
      if Py.str_eqb k k' then (k, v) :: d' else (k', v') :: dict_set k v d'
  end.

(** [d.get(k)] on a dictionary. *)
Definition dict_get (k : string) (d : list (string * pyval)) : pyval :=
  from_option id PNone (PyVal.assoc k d).

(** The loop of [_get_displayname] over the preference list: the first
    preference naming a truthy entry fills ["displayname"] and ends the
    loop.  The second component is what [break] leaves unvisited. *)
Fixpoint displayname_loop (preferences : list string)
    (info : list (string * pyval)) : list (string * pyval) * list string :=
  match preferences with
  | [] => (info, [])
  | preference :: rest =>
      if PyVal.truthy (dict_get preference info)
      then (dict_set "displayname" (dict_get preference info) info, rest)
      else displayname_loop rest info
  end.

(** The dictionary [_get_displayname] builds from a profile. *)
Definition displayname_fields {CR : ContainerRepr} (first last : pyval)
    : list (string * pyval) :=
  [("displayname", PNone);
   ("name", PStr (PyVal.str first +:+ " " +:+ PyVal.str last));
   ("first_name", first);
   ("last_name", last)].

Definition _get_displayname {CR : ContainerRepr} (config : Config) (info : pyval)
    : result string :=
  profile ← PyVal.get info "miniProfile" (PDict []);
  first ← PyVal.get profile "firstName" PNone;
  last ← PyVal.get profile "lastName" PNone;
  bridge_displayname_template config
    (displayname_loop (bridge_displayname_preference config)
       (displayname_fields first last)).1.

Definition _update_name {CR : ContainerRepr} (env : Env) (config : Config)
    (info : pyval) : M World bool :=
  nm ← lift (_get_displayname config info);
  p ← get_self;
  if negb (bool_decide (Some nm = name p)) || negb (name_set p) then
    set_self (with_name (Some nm));;
    try_except
      (perform (SetDisplayname nm) (set_displayname env nm);;
       set_self (with_name_set true))
      (log_exception "Failed to set displayname";;
       set_self (with_name_set false));;
    mret true
  else mret false.

Definition reupload_avatar (env : Env) (url : string) : M World string :=
  image_data ← perform (RequestsGet url) (requests_get env url);
  if negb (ok image_data) then
    raise (Failure "Couldn't download profile picture")
  else
    mime ← lift (magic_from_buffer env (content image_data));
    perform (UploadMedia (content image_data) mime)
      (upload_media env (content image_data) mime).

(** [photo_id_re.match(root_url)] on a truthy [root_url]: anything but a
    string is a [TypeError]. *)
Definition match_root_url (root_url : pyval) : result (option string) :=
  if PyVal.truthy root_url then
    match root_url with
    | PStr s =>
        match Re.match_ photo_id_re s with
        | Some m => Ok (Re.group1 s m)
        | None => Ok None
        end
    | _ => Raise TypeError
    end
  else Ok None.

Definition opt_truthy (s : option string) : bool :=
  match s with
  | Some s => negb (Py.str_eqb s "")
  | None => false
  end.

Definition as_str (v : pyval) : string :=
  match v with PStr s => s | _ => "" end.

Definition _update_photo (env : Env) (picture : pyval) : M World bool :=
  root_url ← lift (PyVal.get picture "rootUrl" PNone);
  pid ← lift (match_root_url root_url);
  p ← get_self;
  if negb (bool_decide (pid = photo_id p)) || negb (avatar_set p) then
    set_self (with_photo_id pid);;
    (if opt_truthy pid then
       artifacts ← lift (PyVal.getitem picture "artifacts");
       artifact ← lift (PyVal.getitem0 artifacts);
       file_path_segment ←
         lift (PyVal.getitem artifact "fileIdentifyingUrlPathSegment");
       (* a matched [root_url] is a string *)
       url ← lift (PyVal.str_add (as_str root_url) file_path_segment);
       mxc ← reupload_avatar env url;
       set_self (with_photo_mxc (Some mxc))
     else set_self (with_photo_mxc (Some "")));;
    p' ← get_self;
    try_except
      (perform (SetAvatarUrl (default "" (photo_mxc p')))
         (set_avatar_url env (default "" (photo_mxc p')));;
       set_self (with_avatar_set true))
      (log_exception "Failed to set avatar";;
       set_self (with_avatar_set false));;
    mret true
  else mret false.

Definition save (env : Env) : M World unit :=
  p ← get_self;
  perform (Save (persisted p)) (db_save env (persisted p)).

(** The [except Exception:] handler of [update_info]; formatting the
    message reads [source.li_member_urn]. *)
Definition update_info_handler (source : option User) : M World unit :=
  match source with
  | None => raise AttributeError
  | Some u =>
      log_exception ("Failed to update info from source "
                     +:+ from_option id "None" (user_li_member_urn u))
  end.

(** The argument [update_info] passes to [_update_photo]. *)
Definition vector_image (info : pyval) : result pyval :=
  profile ← PyVal.get info "miniProfile" (PDict []);
  picture ← PyVal.get profile "picture" (PDict []);
  PyVal.get picture "com.linkedin.common.VectorImage" (PDict []).

(** The identifier [_update_photo] compares with the stored one. *)
Definition target_photo_id (picture : pyval) : result (option string) :=
  root_url ← PyVal.get picture "rootUrl" PNone;
  match_root_url root_url.

(** The body of the [try] statement of [update_info]. *)
Definition update_info_try {CR : ContainerRepr} (env : Env) (config : Config)
    (info : pyval) (update_avatar : bool) : M World unit :=
  changed ← _update_name env config info;
  changed ←
    (if update_avatar then
       picture ← lift (vector_image info);
       changed' ← _update_photo env picture;
       mret (changed' || changed)
     else mret changed);
  if changed : bool then save env else mret tt.

Definition update_info {CR : ContainerRepr} (env : Env) (config : Config)
    (source : option User) (info : pyval) (update_avatar : bool)
    : M World Puppet :=
  if negb (PyVal.truthy info) then get_self
  else
    set_self (with_last_info_sync (Some (now env)));;
    try_except (update_info_try env config info update_avatar)
      (update_info_handler source);;
    get_self.

(** ** A configuration, collaborators and a profile to run the code on *)

Module Sample.

(** A format string cut into literal text and replacement fields. *)
Inductive piece :=
| Lit (s : string)
| Field (k : string).

Fixpoint format {CR : ContainerRepr} (ps : list piece)
    (kwargs : list (string * pyval)) : result string :=
  match ps with
  | [] => Ok ""
  | Lit s :: ps' => rest ← format ps' kwargs; Ok (s +:+ rest)
  | Field k :: ps' =>
      match PyVal.assoc k kwargs with
      | Some v => rest ← format ps' kwargs; Ok (PyVal.str v +:+ rest)
      | None => Raise KeyError
      end
  end.

Definition repr : ContainerRepr := fun _ => "{...}".

(** [username_template: "linkedin_{userid}"],
    [displayname_preference: [displayname, name, first_name]],
    [displayname_template: "{displayname} (LinkedIn)"]. *)
Definition config : Config :=
  {| homeserver_domain := "example.org";
     bridge_username_template := "linkedin_{userid}";
     bridge_displayname_preference := ["displayname"; "name"; "first_name"];
     bridge_displayname_template :=
       format (CR:=repr) [Field "displayname"; Lit " (LinkedIn)"] |}.

Definition root_url : string :=
  "https://media.licdn.com/image/ABC123/profile-displayphoto-shrink_".

Definition info : pyval :=
  PDict [("miniProfile",
          PDict [("firstName", PStr "Ada");
                 ("lastName", PStr "Lovelace");
                 ("picture",
                  PDict [("com.linkedin.common.VectorImage",
                          PDict [("rootUrl", PStr root_url);
                                 ("artifacts",
                                  PList [PDict [("fileIdentifyingUrlPathSegment",
                                                 PStr "100_100")]])])])])].

(** A profile without names and without a picture. *)
Definition info_anonymous : pyval :=
  PDict [("miniProfile", PDict [("entityUrn", PStr "urn:li:fs_miniProfile:1")])].

(** Every collaborator answers. *)
Definition env : Env :=
  {| now := 1700000000;
     set_displayname := fun _ => Ok tt;
     set_avatar_url := fun _ => Ok tt;
     requests_get := fun _ => Ok {| ok := true; content := "PNG" |};
     magic_from_buffer := fun _ => Ok "image/png";
     upload_media := fun _ _ => Ok "mxc://example.org/abc";
     db_save := fun _ => Ok tt |}.

(** The image server answers 404. *)
Definition env_no_download : Env :=
  {| now := 1700000000;
     set_displayname := fun _ => Ok tt;
     set_avatar_url := fun _ => Ok tt;
     requests_get := fun _ => Ok {| ok := false; content := "" |};
     magic_from_buffer := fun _ => Ok "image/png";
     upload_media := fun _ _ => Ok "mxc://example.org/abc";
     db_save := fun _ => Ok tt |}.

(** The homeserver rejects the display name. *)
Definition env_no_displayname : Env :=
  {| now := 1700000000;
     set_displayname := fun _ => Raise (Failure "M_FORBIDDEN");
     set_avatar_url := fun _ => Ok tt;
     requests_get := fun _ => Ok {| ok := true; content := "PNG" |};
     magic_from_buffer := fun _ => Ok "image/png";
     upload_media := fun _ _ => Ok "mxc://example.org/abc";
     db_save := fun _ => Ok tt |}.

(** A puppet whose name and avatar are in place. *)
Definition puppet : Puppet :=
  {| li_member_urn := "ACoAAB"; name := Some "Ada L. (LinkedIn)";
     photo_id := Some "OLD"; photo_mxc := Some "mxc://example.org/old";
     custom_mxid := None; next_batch := None;
     name_set := true; avatar_set := true; is_registered := true;
     _last_info_sync := None |}.

Definition world : World := {| self := puppet; log := []; calls := [] |}.


Definition user : User := {| user_li_member_urn := Some "ACoAAC" |}.

End Sample.

(** ** Registry: the class-level caches and the puppet table *)

(** What a getter does to the caches and to the store, in order. *)
Inductive access :=
| CacheRead (urn : string)
| StoreLoad (urn : string)
| Construct (urn : string)
| StoreInsert (urn : string).

Global Instance access_eq_dec : EqDecision access.
Proof. solve_decision. Defined.

(** Puppet objects live in [heap] and are named by their index, so that
    two cache entries can hold the same object.

    Modelled from the spec: the [db.Puppet] base class is not part of the
    source file.  The spec gives the store as a CRUD collaborator with
    [loadByRemoteKey(key)] and [insert(puppet)]; here it is the list of
    rows [table], a load builds a new object from the first row with the
    key, by the constructor of the class, and an insert appends the row.
    The store is taken to be up. *)
Record Registry := {
  heap : list Puppet;
  by_li_member_urn : gmap string nat;
  by_custom_mxid : gmap string nat;
  table : list Puppet;
  accesses : list access
}.

Definition store_load (urn : string) (rows : list Puppet) : option Puppet :=
  List.find (fun row => bool_decide (li_member_urn row = urn)) rows.

Definition record (a : list access) (R : Registry) : Registry :=
  {| heap := heap R; by_li_member_urn := by_li_member_urn R;
     by_custom_mxid := by_custom_mxid R; table := table R;
     accesses := accesses R ++ a |}.

(** A new object; its reference is the old length of the heap. *)
Definition allocate (p : Puppet) (R : Registry) : Registry :=
  {| heap := heap R ++ [p]; by_li_member_urn := by_li_member_urn R;
     by_custom_mxid := by_custom_mxid R; table := table R;
     accesses := accesses R |}.

Definition store_insert (row : Puppet) (R : Registry) : Registry :=
  {| heap := heap R; by_li_member_urn := by_li_member_urn R;
     by_custom_mxid := by_custom_mxid R; table := table R ++ [row];
     accesses := accesses R ++ [StoreInsert (li_member_urn row)] |}.

Definition _add_to_cache (r : nat) (R : Registry) : Registry :=
  match heap R !! r with
  | Some p =>
      {| heap := heap R;
         by_li_member_urn := <[li_member_urn p := r]> (by_li_member_urn R);
         by_custom_mxid :=
           (if opt_truthy (custom_mxid p)
            then <[default "" (custom_mxid p) := r]> (by_custom_mxid R)
            else by_custom_mxid R);
         table := table R;
         accesses := accesses R |}
  | None => R
  end.

(** [Puppet.__init__] on the fields of a stored row, as the store calls
    it when it loads a row.  Its last step but one is
    [self.intent = self._fresh_intent()]; [_fresh_intent] is a method of
    the mautrix base class [BasePuppet], which is not part of the source
    file.  As mautrix has it, it asks whether the puppet has a custom mxid
    and, when it has one, reads [self.access_token]: neither [Puppet] nor
    the nine fields it passes on to its table provide that attribute, so
    building a puppet that has a custom mxid raises [AttributeError].  A
    puppet without one, or with the empty string for one, is built from
    its row as it is. *)
Definition construct (row : Puppet) : result Puppet :=
  if opt_truthy (custom_mxid row) then Raise AttributeError else Ok row.


Global Instance exn_eq_dec : EqDecision exn.
Proof. solve_decision. Defined.

(** Where a call of [get_by_li_member_urn] stands.  Between two points the
    code runs without suspending; it suspends while it waits for the lock,
    for the load and for the insert.  It ends with a result or with an
    exception. *)
Inductive pc :=
| Waiting
| Entered
| Loading
| Inserting (r : nat)
| Returned (res : option nat)
| Raised (e : exn).

Global Instance pc_eq_dec : EqDecision pc.
Proof. solve_decision. Defined.

(** The body of [get_by_li_member_urn] from one point to the next. *)
Definition segment (urn : string) (create : bool) (at_ : pc) (R : Registry)
    : pc * Registry :=
  match at_ with
  | Entered =>
      match by_li_member_urn R !! urn with
      | Some r => (Returned (Some r), record [CacheRead urn] R)
      | None => (Loading, record [CacheRead urn; StoreLoad urn] R)
      end
  | Loading =>
      match store_load urn (table R) with
      | Some row =>
          match construct row with
          | Ok puppet =>
              let r := length (heap R) in
              (Returned (Some r), _add_to_cache r (allocate puppet R))
          | Raise e => (Raised e, R)
          end
      | None =>
          if create then
            let r := length (heap R) in
            (Inserting r,
             record [Construct urn]
               (allocate (new_puppet urn None None None false false) R))
          else (Returned None, R)
      end
  | Inserting r =>
      match heap R !! r with
      | Some p => (Returned (Some r), _add_to_cache r (store_insert (persisted p) R))
      | None => (Returned None, R)
      end
  | Waiting | Returned _ | Raised _ => (at_, R)
  end.

(** The ways a segment can go. *)
Inductive segment_case (k : string) (R : Registry) : pc -> pc -> Registry -> Prop :=
| seg_hit r :
    by_li_member_urn R !! k = Some r ->
    segment_case k R Entered (Returned (Some r)) (record [CacheRead k] R)
| seg_miss :
    by_li_member_urn R !! k = None ->
    segment_case k R Entered Loading (record [CacheRead k; StoreLoad k] R)
| seg_loaded row :
    li_member_urn row = k ->
    opt_truthy (custom_mxid row) = false ->
    segment_case k R Loading (Returned (Some (length (heap R))))
      (_add_to_cache (length (heap R)) (allocate row R))
| seg_refused row :
    li_member_urn row = k ->
    opt_truthy (custom_mxid row) = true ->
    segment_case k R Loading (Raised AttributeError) R
| seg_construct :
    segment_case k R Loading (Inserting (length (heap R)))
      (record [Construct k]
         (allocate (new_puppet k None None None false false) R))
| seg_inserted r p :
    heap R !! r = Some p ->
    segment_case k R (Inserting r) (Returned (Some r))
      (_add_to_cache r (store_insert (persisted p) R))
| seg_lost r :
    heap R !! r = None ->
    segment_case k R (Inserting r) (Returned None) R.

Definition result_of (at_ : pc) : result (option nat) :=
  match at_ with
  | Returned res => Ok res
  | Raised e => Raise e
  | _ => Ok None
  end.

(** One caller alone: the lock is free, and the three segments run one
    after the other. *)
Definition get_by_li_member_urn (urn : string) (create : bool) (R : Registry)
    : result (option nat) * Registry :=
  let '(at1, R1) := segment urn create Entered R in
  let '(at2, R2) := segment urn create at1 R1 in
  let '(at3, R3) := segment urn create at2 R2 in
  (result_of at3, R3).

Definition get_by_mxid (config : Config) (mxid : string) (create : bool)
    (R : Registry) : result (option nat) * Registry :=
  match get_id_from_mxid config mxid with
  | Some urn =>
      if negb (Py.str_eqb urn "") then get_by_li_member_urn urn create R
      else (Ok None, R)
  | None => (Ok None, R)
  end.

(** ** Concurrent callers of [get_by_li_member_urn] *)

Module Tasks.

(** Modelled from the spec: the decorator [async_getter_lock] of the
    mautrix library is not part of the source file.  The spec describes a
    per-key lock that makes the read-check-create sequence atomic per key
    and lets calls for different keys proceed concurrently; here a caller
    enters the body only while no other caller holds the lock of its key,
    and gives the lock back when it returns. *)
Record System := {
  registry : Registry;
  locks : gmap string nat;
  tasks : list (string * pc)
}.

Definition running (at_ : pc) : bool :=
  match at_ with
  | Entered | Loading | Inserting _ => true
  | Waiting | Returned _ | Raised _ => false
  end.

(** The call is over, with a result or with an exception; either way the
    lock is given back. *)
Definition returned (at_ : pc) : bool :=
  match at_ with
  | Returned _ | Raised _ => true
  | _ => false
  end.

(** The scheduler resumes task [i]; [None] when the task cannot move. *)
Definition resume (i : nat) (S : System) : option System :=
  match tasks S !! i with
  | Some (k, Waiting) =>
      match locks S !! k with
      | None =>
          Some {| registry := registry S;
                  locks := <[k := i]> (locks S);
                  tasks := <[i := (k, Entered)]> (tasks S) |}
      | Some _ => None
      end
  | Some (k, at_) =>
      if running at_ then
        let '(at', R') := segment k true at_ (registry S) in
        Some {| registry := R';
                locks := (if returned at' then delete k (locks S) else locks S);
                tasks := <[i := (k, at')]> (tasks S) |}
      else None
  | None => None
  end.

(** A schedule is the list of tasks the event loop resumes, in order; a
    task that cannot move is passed over. *)
Fixpoint run (schedule : list nat) (S : System) : System :=
  match schedule with
  | [] => S
  | i :: rest => run rest (default S (resume i S))
  end.


(** Process start: empty caches, no object yet, every caller about to
    take the lock of its key. *)
Definition initial (rows : list Puppet) (keys : list string) : System :=
  {| registry := {| heap := []; by_li_member_urn := ∅; by_custom_mxid := ∅;
                    table := rows; accesses := [] |};
     locks := ∅;
     tasks := (fun k => (k, Waiting)) <$> keys |}.

Definition instances (k : string) (R : Registry) : list Puppet :=
  filter (fun p => li_member_urn p = k) (heap R).

Definition count_access (a : access) (R : Registry) : nat :=
  length (filter (fun b => b = a) (accesses R)).



(** What holds of every state the callers can reach. *)
Record invariant (S : System) : Prop := {
  inv_holder : forall i k a,
    tasks S !! i = Some (k, a) -> running a = true -> locks S !! k = Some i;
  inv_locked : forall k i,
    locks S !! k = Some i ->
    exists a, tasks S !! i = Some (k, a) /\ running a = true;
  inv_cached : forall k r,
    by_li_member_urn (registry S) !! k = Some r ->
    exists p, heap (registry S) !! r = Some p /\ li_member_urn p = k;
  inv_owned : forall r p,
    heap (registry S) !! r = Some p ->
    by_li_member_urn (registry S) !! li_member_urn p = Some r
    \/ exists i, tasks S !! i = Some (li_member_urn p, Inserting r);
  inv_miss : forall i k a,
    tasks S !! i = Some (k, a) ->
    a = Loading \/ (exists r, a = Inserting r) ->
    by_li_member_urn (registry S) !! k = None;
  inv_pending : forall i k r,
    tasks S !! i = Some (k, Inserting r) ->
    exists p, heap (registry S) !! r = Some p /\ li_member_urn p = k;
  inv_returned : forall i k res,
    tasks S !! i = Some (k, Returned res) ->
    exists r, res = Some r /\ by_li_member_urn (registry S) !! k = Some r;
  inv_construct : forall k,
    (count_access (Construct k) (registry S) <= 1)%nat
    /\ ((0 < count_access (Construct k) (registry S))%nat ->
        is_Some (by_li_member_urn (registry S) !! k)
        \/ exists i r, tasks S !! i = Some (k, Inserting r));
  inv_insert : forall k,
    (count_access (StoreInsert k) (registry S) <= 1)%nat
    /\ ((0 < count_access (StoreInsert k) (registry S))%nat ->
        is_Some (by_li_member_urn (registry S) !! k));
  inv_instances : forall k, (length (instances k (registry S)) <= 1)%nat
}.

End Tasks.

(** ** What a computation calls *)

(** Every call [m] makes satisfies [P], however [m] ends. *)
Definition emits {A} (P : call -> Prop) (m : M World A) : Prop :=
  forall w r w', m w = (r, w') ->
    exists l, calls w' = (calls w ++ l)%list /\ Forall P l.

Definition is_save (c : call) : bool :=
  match c with
  | Save _ => true
  | _ => false
  end.

(** The calls that fetch, upload or set an avatar. *)
Definition is_avatar_call (c : call) : bool :=
  match c with
  | SetAvatarUrl _ | RequestsGet _ | UploadMedia _ _ => true
  | _ => false
  end.

(** ** Text of one path segment *)

Definition slash : Ascii.ascii :=
  Ascii.Ascii true true true true false true false false.

(** The opening brace of a placeholder. *)
Definition brace : Ascii.ascii :=
  Ascii.Ascii true true false true true true true false.

(** No character of [s] is a slash or a newline. *)
Fixpoint plain (s : string) : bool :=
  match s with
  | EmptyString => true
  | String c s' =>
      negb (Ascii.eqb c slash) && negb (Ascii.eqb c Re.newline) && plain s'
  end.

(** ** The getters by custom mxid *)

(** Modelled from the spec: the queries [loadByCustomLocalId(id)] and
    [loadAllWithCustomLocalId()] of the store behind [db.Puppet], which is
    not part of the source file: the first row with the custom mxid, and
    the rows that have one. *)
Definition store_load_custom (mxid : string) (rows : list Puppet)
    : option Puppet :=
  List.find (fun row => bool_decide (custom_mxid row = Some mxid)) rows.


(** [get_by_custom_mxid], one caller alone; the record of accesses is kept
    by [get_by_li_member_urn] only.  A row of the store is built into an
    object by the constructor of the class. *)
Definition get_by_custom_mxid (mxid : string) (R : Registry)
    : result (option nat) * Registry :=
  match by_custom_mxid R !! mxid with
  | Some r => (Ok (Some r), R)
  | None =>
      match store_load_custom mxid (table R) with
      | Some row =>
          match construct row with
          | Ok puppet =>
              let r := length (heap R) in
              (Ok (Some r), _add_to_cache r (allocate puppet R))
          | Raise e => (Raise e, R)
          end
      | None => (Ok None, R)
      end
  end.



(** ** One caller alone *)

(** Where a call stands once it is over: it has returned its result or
    raised its exception. *)
Definition finished (res : result (option nat)) : pc :=
  match res with
  | Ok r => Returned r
  | Raise e => Raised e
  end.

(** A registry with one caller of [get_by_li_member_urn] about to take the
    lock of its key, and nothing else going on. *)
Definition alone (R : Registry) (k : string) : Tasks.System :=
  {| Tasks.registry := R; Tasks.locks := ∅; Tasks.tasks := [(k, Waiting)] |}.

(** What the rows of the store keep while callers run: one row per key,
    and no row for a key whose puppet is being inserted. *)
Definition store_invariant (S : Tasks.System) : Prop :=
  NoDup (li_member_urn <$> table (Tasks.registry S))
  /\ forall i k r, Tasks.tasks S !! i = Some (k, Inserting r) ->
                   store_load k (table (Tasks.registry S)) = None.


(** * Properties *)

(** ** Strings and slices *)

Module PyFacts.

Lemma app_cons (c : Ascii.ascii) (a b : string) :
  String c a +:+ b = String c (a +:+ b).
Proof. reflexivity. Qed.

Lemma length_app (a b : string) :
  String.length (a +:+ b) = (String.length a + String.length b)%nat.
Proof. induction a as [|c a IH]; rewrite ?app_cons; simpl; [reflexivity | f_equal; exact IH]. Qed.

Lemma len_app (a b : string) : Py.len (a +:+ b) = Py.len a + Py.len b.
Proof. unfold Py.len. rewrite length_app. lia. Qed.

Lemma len_nonneg (a : string) : 0 <= Py.len a.
Proof. unfold Py.len. lia. Qed.

Lemma len_zero (a : string) : Py.len a = 0 -> a = "".
Proof. destruct a; [reflexivity | unfold Py.len; simpl; lia]. Qed.

Lemma app_empty_r (a : string) : a +:+ "" = a.
Proof. induction a as [|c a IH]; rewrite ?app_cons; simpl; [reflexivity | f_equal; exact IH]. Qed.

Lemma str_take_app (a b : string) : Py.str_take (String.length a) (a +:+ b) = a.
Proof. induction a as [|c a IH]; rewrite ?app_cons; simpl; [now destruct b | f_equal; exact IH]. Qed.

Lemma str_drop_app (a b : string) : Py.str_drop (String.length a) (a +:+ b) = b.
Proof. induction a as [|c a IH]; rewrite ?app_cons; simpl; [reflexivity | exact IH]. Qed.

Lemma str_take_all (a : string) : Py.str_take (String.length a) a = a.
Proof. induction a as [|c a IH]; rewrite ?app_cons; simpl; [reflexivity | f_equal; exact IH]. Qed.

Lemma to_nat_len (a : string) : Z.to_nat (Py.len a) = String.length a.
Proof. unfold Py.len. lia. Qed.

(** [(p + k + s)[:len(p)] == p] *)
Lemma slice_prefix (p rest : string) :
  Py.slice (p +:+ rest) None (Some (Py.len p)) = p.
Proof.
  unfold Py.slice, Py.slice_index. rewrite len_app.
  pose proof (len_nonneg p). pose proof (len_nonneg rest).
  destruct (Z.ltb_spec (Py.len p) 0); [lia|].
  replace (Z.min (Py.len p + Py.len rest) (Py.len p) - 0) with (Py.len p) by lia.
  rewrite to_nat_len. simpl. apply str_take_app.
Qed.

(** [(front + s)[-len(s):] == s] for a non-empty [s] *)
Lemma slice_suffix (front s : string) :
  0 < Py.len s ->
  Py.slice (front +:+ s) (Some (- Py.len s)) None = s.
Proof.
  intros Hs. unfold Py.slice, Py.slice_index. rewrite len_app.
  pose proof (len_nonneg front).
  destruct (Z.ltb_spec (- Py.len s) 0); [|lia].
  replace (Z.max 0 (Py.len front + Py.len s + - Py.len s)) with (Py.len front) by lia.
  replace (Py.len front + Py.len s - Py.len front) with (Py.len s) by lia.
  rewrite !to_nat_len, str_drop_app. apply str_take_all.
Qed.

(** [(p + k + s)[len(p):-len(s)] == k] for a non-empty [s] *)
Lemma slice_body (p k s : string) :
  0 < Py.len s ->
  Py.slice (p +:+ k +:+ s) (Some (Py.len p)) (Some (- Py.len s)) = k.
Proof.
  intros Hs. unfold Py.slice, Py.slice_index. rewrite !len_app.
  pose proof (len_nonneg p). pose proof (len_nonneg k).
  destruct (Z.ltb_spec (Py.len p) 0); [lia|].
  destruct (Z.ltb_spec (- Py.len s) 0); [|lia].
  replace (Z.min (Py.len p + (Py.len k + Py.len s)) (Py.len p)) with (Py.len p) by lia.
  replace (Z.max 0 (Py.len p + (Py.len k + Py.len s) + - Py.len s) - Py.len p)
    with (Py.len k) by lia.
  rewrite !to_nat_len, str_drop_app. apply str_take_app.
Qed.

(** [(p + k)[len(p):len(p + k)] == k] *)
Lemma slice_rest (p k : string) :
  Py.slice (p +:+ k) (Some (Py.len p)) (Some (Py.len (p +:+ k))) = k.
Proof.
  unfold Py.slice, Py.slice_index. rewrite !len_app.
  pose proof (len_nonneg p). pose proof (len_nonneg k).
  destruct (Z.ltb_spec (Py.len p) 0); [lia|].
  destruct (Z.ltb_spec (Py.len p + Py.len k) 0); [lia|].
  replace (Z.min (Py.len p + Py.len k) (Py.len p)) with (Py.len p) by lia.
  replace (Z.min (Py.len p + Py.len k) (Py.len p + Py.len k) - Py.len p)
    with (Py.len k) by lia.
  rewrite !to_nat_len, str_drop_app. apply str_take_all.
Qed.

Lemma app_assoc (a b c : string) : (a +:+ b) +:+ c = a +:+ b +:+ c.
Proof. induction a as [|x a IH]; rewrite ?app_cons; simpl; [reflexivity | f_equal; exact IH]. Qed.

End PyFacts.

(** ** Identifier mapper *)

Lemma parse_format_full (T : SimpleTemplate.t) (k : string) :
  SimpleTemplate.parse T (SimpleTemplate.format_full T k) = Some k.
Proof.
  unfold SimpleTemplate.parse, SimpleTemplate.format_full, Py.str_eqb.
  set (p := SimpleTemplate.prefix T). set (s := SimpleTemplate.suffix T).
  rewrite PyFacts.slice_prefix, String.eqb_refl.
  destruct (Z.ltb_spec 0 (Py.len s)) as [Hs|Hs]; simpl.
  - rewrite <- (PyFacts.app_assoc p k s) at 1.
    rewrite PyFacts.slice_suffix by exact Hs.
    rewrite String.eqb_refl. simpl.
    now rewrite PyFacts.slice_body.
  - pose proof (PyFacts.len_nonneg s).
    assert (s = "") as -> by (apply PyFacts.len_zero; lia).
    rewrite PyFacts.app_empty_r. now rewrite PyFacts.slice_rest.
Qed.

(** C1: for every configuration and every remote key [k], parsing the
    local identifier formatted from [k] gives [k] back.  Both functions are
    total functions of the configuration and their argument, with no state
    to read or write. *)
Theorem get_id_from_mxid_get_mxid_from_id (config : Config) (k : string) :
  get_id_from_mxid config (get_mxid_from_id config k) = Some k.
Proof. unfold get_id_from_mxid, get_mxid_from_id. apply parse_format_full. Qed.

Local Open Scope list_scope.

(** ** A small logic for the synchroniser's monad *)

Module Hoare.

Ltac unfold_m :=
  unfold lift, raise, try_except, perform, set_self, get_self, log_exception,
    mbind, mret, M_bind, M_ret in *.

Lemma bind_inv {S A B} (m : M S A) (f : A -> M S B) s r s' :
  (m ≫= f) s = (r, s') ->
  (exists a s1, m s = (Ok a, s1) /\ f a s1 = (r, s'))
  \/ (exists e, m s = (Raise e, s') /\ r = Raise e).
Proof.
  unfold mbind, M_bind. destruct (m s) as [[a|e] s1]; intros Hm.
  - left. eauto.
  - right. injection Hm as <- <-. eauto.
Qed.

Lemma try_except_inv {S A} (body handler : M S A) s r s' :
  try_except body handler s = (r, s') ->
  (exists a, body s = (Ok a, s') /\ r = Ok a)
  \/ (exists e s1, body s = (Raise e, s1) /\ handler s1 = (r, s')).
Proof.
  unfold try_except. destruct (body s) as [[a|e] s1]; intros Hm.
  - left. injection Hm as <- <-. eauto.
  - right. eauto.
Qed.

Section Keeps.
Context {B : Type} (g : Puppet -> B).

Lemma keeps_ret {A} (a : A) : keeps g (mret a).
Proof. intros w r w' [= <- <-]. reflexivity. Qed.

Lemma keeps_raise {A} e : keeps g (raise (A:=A) e).
Proof. intros w r w' [= <- <-]. reflexivity. Qed.

Lemma keeps_lift {A} (x : result A) : keeps g (lift x).
Proof. intros w r w' [= <- <-]. reflexivity. Qed.

Lemma keeps_get_self : keeps g get_self.
Proof. intros w r w' [= <- <-]. reflexivity. Qed.

Lemma keeps_perform {A} c (x : result A) : keeps g (perform c x).
Proof. intros w r w' [= <- <-]. reflexivity. Qed.

Lemma keeps_log msg : keeps g (log_exception msg).
Proof. intros w r w' [= <- <-]. reflexivity. Qed.

Lemma keeps_set_self (f : Puppet -> Puppet) :
  (forall p, g (f p) = g p) -> keeps g (set_self f).
Proof. intros Hf w r w' [= <- <-]. simpl. apply Hf. Qed.

Lemma keeps_bind {A C} (m : M World A) (f : A -> M World C) :
  keeps g m -> (forall a, keeps g (f a)) -> keeps g (m ≫= f).
Proof.
  intros Hm Hf w r w' Hb.
  destruct (bind_inv _ _ _ _ _ Hb) as [(a & w1 & H1 & H2)|(e & H1 & _)].
  - rewrite (Hf _ _ _ _ H2). eapply Hm, H1.
  - eapply Hm, H1.
Qed.

Lemma keeps_try {A} (body handler : M World A) :
  keeps g body -> keeps g handler -> keeps g (try_except body handler).
Proof.
  intros Hb Hh w r w' Ht.
  destruct (try_except_inv _ _ _ _ _ Ht) as [(a & H1 & _)|(e & w1 & H1 & H2)].
  - eapply Hb, H1.
  - rewrite (Hh _ _ _ H2). eapply Hb, H1.
Qed.

Lemma keeps_if {A} (b : bool) (m1 m2 : M World A) :
  keeps g m1 -> keeps g m2 -> keeps g (if b then m1 else m2).
Proof. destruct b; auto. Qed.

End Keeps.

Ltac keeps_step :=
  first
    [ apply keeps_bind; [|intros ?]
    | apply keeps_try
    | apply keeps_if
    | apply keeps_ret
    | apply keeps_raise
    | apply keeps_lift
    | apply keeps_get_self
    | apply keeps_perform
    | apply keeps_log
    | apply keeps_set_self; intros []; reflexivity ].

Ltac keeps_auto := repeat keeps_step.

End Hoare.
Import Hoare.


Lemma bind_lift_ok {S A B} (a : A) (f : A -> M S B) s :
  (lift (Ok a) ≫= f) s = f a s.
Proof. reflexivity. Qed.

Lemma bind_lift_raise {S A B} e (f : A -> M S B) s :
  (lift (Raise e) ≫= f) s = (Raise e, s).
Proof. reflexivity. Qed.

Lemma bind_ok {S A B} (m : M S A) (f : A -> M S B) s a s1 :
  m s = (Ok a, s1) -> (m ≫= f) s = f a s1.
Proof. intros Hm. unfold mbind, M_bind. rewrite Hm. reflexivity. Qed.

Lemma bind_raise {S A B} (m : M S A) (f : A -> M S B) s e s1 :
  m s = (Raise e, s1) -> (m ≫= f) s = (Raise e, s1).
Proof. intros Hm. unfold mbind, M_bind. rewrite Hm. reflexivity. Qed.

Lemma bind_get_self {B} (f : Puppet -> M World B) w :
  (get_self ≫= f) w = f (self w) w.
Proof. reflexivity. Qed.

Lemma bind_set_self {B} h (f : unit -> M World B) w :
  (set_self h ≫= f) w =
  f tt {| self := h (self w); log := log w; calls := calls w |}.
Proof. reflexivity. Qed.

Lemma target_photo_id_ok picture pid :
  target_photo_id picture = Ok pid ->
  exists root, PyVal.get picture "rootUrl" PNone = Ok root
               /\ match_root_url root = Ok pid.
Proof.
  unfold target_photo_id, mbind, result_bind.
  destruct (PyVal.get picture "rootUrl" PNone); [eauto | discriminate].
Qed.

Lemma target_photo_id_raise picture e :
  target_photo_id picture = Raise e ->
  PyVal.get picture "rootUrl" PNone = Raise e
  \/ exists root, PyVal.get picture "rootUrl" PNone = Ok root
                  /\ match_root_url root = Raise e.
Proof.
  unfold target_photo_id, mbind, result_bind.
  destruct (PyVal.get picture "rootUrl" PNone); [eauto | left; congruence].
Qed.

Section Synchroniser.
Context {CR : ContainerRepr}.

Lemma _update_name_raises env config info w e :
  _get_displayname config info = Raise e ->
  _update_name env config info w = (Raise e, w).
Proof. intros Hn. unfold _update_name. rewrite Hn. reflexivity. Qed.

Lemma _update_name_unchanged env config info w nm :
  _get_displayname config info = Ok nm ->
  name (self w) = Some nm -> name_set (self w) = true ->
  _update_name env config info w = (Ok false, w).
Proof.
  intros Hn Hname Hset. unfold _update_name.
  rewrite Hn, bind_lift_ok, bind_get_self, Hname, Hset.
  rewrite bool_decide_eq_true_2 by reflexivity. reflexivity.
Qed.

Lemma _update_name_changed env config info w nm :
  _get_displayname config info = Ok nm ->
  Some nm <> name (self w) \/ name_set (self w) = false ->
  _update_name env config info w =
    (Ok true,
     {| self := with_name_set
                  (match set_displayname env nm with Ok _ => true | Raise _ => false end)
                  (with_name (Some nm) (self w));
        log := log w ++ (match set_displayname env nm with
                         | Ok _ => []
                         | Raise _ => ["Failed to set displayname"]
                         end);
        calls := calls w ++ [SetDisplayname nm] |}).
Proof.
  intros Hn Hc. unfold _update_name.
  rewrite Hn, bind_lift_ok, bind_get_self.
  assert (negb (bool_decide (Some nm = name (self w)))
          || negb (name_set (self w)) = true) as ->.
  { destruct Hc as [Hc|Hc].
    - rewrite bool_decide_eq_false_2 by exact Hc. reflexivity.
    - rewrite Hc. apply orb_true_r. }
  rewrite bind_set_self. unfold_m. simpl.
  destruct (set_displayname env nm) as [[]|e]; simpl.
  - rewrite app_nil_r. reflexivity.
  - reflexivity.
Qed.

(** Whatever [_update_name] does when the name can be computed, the
    puppet ends with that name. *)
Lemma _update_name_name env config info w r w' nm :
  _get_displayname config info = Ok nm ->
  _update_name env config info w = (r, w') ->
  name (self w') = Some nm.
Proof.
  intros Hn Hu.
  destruct (decide (Some nm = name (self w))) as [Heq|Hne].
  - destruct (name_set (self w)) eqn:Hset.
    + rewrite (_update_name_unchanged _ _ _ _ nm) in Hu by auto.
      injection Hu as <- <-. auto.
    + rewrite (_update_name_changed _ _ _ _ nm) in Hu by auto.
      injection Hu as <- <-. reflexivity.
  - rewrite (_update_name_changed _ _ _ _ nm) in Hu by auto.
    injection Hu as <- <-. reflexivity.
Qed.

Lemma _update_name_keeps_photo env config info :
  keeps (fun p => (photo_id p, photo_mxc p, avatar_set p))
    (_update_name env config info).
Proof. unfold _update_name. keeps_auto. Qed.

End Synchroniser.

Lemma reupload_avatar_keeps {B} (g : Puppet -> B) env url :
  keeps g (reupload_avatar env url).
Proof. unfold reupload_avatar. keeps_auto. Qed.

Lemma save_keeps {B} (g : Puppet -> B) env : keeps g (save env).
Proof. unfold save. keeps_auto. Qed.

Lemma update_info_handler_keeps {B} (g : Puppet -> B) source :
  keeps g (update_info_handler source).
Proof. unfold update_info_handler. destruct source; keeps_auto. Qed.

(** [_update_photo] writes [photo_id], [photo_mxc] and [avatar_set] and
    nothing else. *)
Lemma _update_photo_keeps_with {B} (g : Puppet -> B) env picture :
  (forall v p, g (with_photo_id v p) = g p) ->
  (forall v p, g (with_photo_mxc v p) = g p) ->
  (forall v p, g (with_avatar_set v p) = g p) ->
  keeps g (_update_photo env picture).
Proof.
  intros H1 H2 H3. unfold _update_photo.
  repeat first [ apply keeps_set_self; intros ?; solve [auto] | keeps_step ].
  all: apply reupload_avatar_keeps.
Qed.

Lemma _update_photo_unchanged env picture w pid :
  target_photo_id picture = Ok pid ->
  photo_id (self w) = pid -> avatar_set (self w) = true ->
  _update_photo env picture w = (Ok false, w).
Proof.
  intros (root & Hr & Hm)%target_photo_id_ok Hp Ha. unfold _update_photo.
  rewrite Hr, bind_lift_ok, Hm, bind_lift_ok, bind_get_self, Hp, Ha.
  rewrite bool_decide_eq_true_2 by reflexivity. reflexivity.
Qed.

Lemma _update_photo_raises_early env picture w e :
  target_photo_id picture = Raise e ->
  _update_photo env picture w = (Raise e, w).
Proof.
  intros [Hr|(root & Hr & Hm)]%target_photo_id_raise; unfold _update_photo.
  - rewrite Hr. reflexivity.
  - rewrite Hr, bind_lift_ok, Hm. reflexivity.
Qed.

(** Once the identifier is known, [_update_photo] leaves it in [photo_id],
    also when it raises afterwards. *)
Lemma _update_photo_photo_id env picture w r w' pid :
  target_photo_id picture = Ok pid ->
  _update_photo env picture w = (r, w') ->
  photo_id (self w') = pid.
Proof.
  intros (root & Hr & Hm)%target_photo_id_ok. unfold _update_photo.
  rewrite Hr, bind_lift_ok, Hm, bind_lift_ok, bind_get_self.
  destruct (negb (bool_decide (pid = photo_id (self w)))
            || negb (avatar_set (self w))) eqn:Hc.
  - rewrite bind_set_self. intros Hrest.
    match type of Hrest with
    | ?m ?w0 = _ => assert (keeps photo_id m) as Hk
    end.
    { keeps_auto. all: apply reupload_avatar_keeps. }
    apply Hk in Hrest. exact Hrest.
  - intros [= <- <-].
    apply orb_false_elim in Hc as [Hc _].
    apply negb_false_iff, bool_decide_eq_true_1 in Hc. congruence.
Qed.

Section UpdateInfo.
Context {CR : ContainerRepr}.

Lemma update_info_falsy env config source info update_avatar w :
  PyVal.truthy info = false ->
  update_info env config source info update_avatar w = (Ok (self w), w).
Proof. intros Hi. unfold update_info. rewrite Hi. reflexivity. Qed.

Lemma update_info_truthy env config source info update_avatar w :
  PyVal.truthy info = true ->
  update_info env config source info update_avatar w =
  (try_except (update_info_try env config info update_avatar)
     (update_info_handler source);; get_self)
    {| self := with_last_info_sync (Some (now env)) (self w);
       log := log w; calls := calls w |}.
Proof. intros Hi. unfold update_info. rewrite Hi. reflexivity. Qed.

(** With a source at hand the handler only logs, so [update_info] returns
    the puppet whatever happens inside the [try]. *)
Lemma update_info_returns env config u info update_avatar w :
  exists w', update_info env config (Some u) info update_avatar w
             = (Ok (self w'), w').
Proof.
  destruct (PyVal.truthy info) eqn:Hi.
  - rewrite update_info_truthy by exact Hi.
    unfold try_except, update_info_handler, log_exception, get_self,
      mbind, M_bind at 1.
    match goal with
    | |- context [update_info_try ?e ?c ?i ?a ?w0] =>
        destruct (update_info_try e c i a w0) as [[[]|e'] w1]
    end; simpl;
      match goal with |- exists w', (_, ?x) = _ => exists x; reflexivity end.
  - rewrite update_info_falsy by exact Hi. eauto.
Qed.

Lemma update_info_try_name env config info update_avatar w r w' nm :
  _get_displayname config info = Ok nm ->
  update_info_try env config info update_avatar w = (r, w') ->
  name (self w') = Some nm.
Proof.
  intros Hn Ht. unfold update_info_try in Ht.
  apply bind_inv in Ht as [(c & w1 & H1 & H2)|(e & H1 & _)].
  - rewrite <- (_update_name_name _ _ _ _ _ _ _ Hn H1).
    revert H2.
    match goal with
    | |- ?m w1 = _ -> _ => assert (keeps name m) as Hk
    end.
    { keeps_auto;
      first [apply _update_photo_keeps_with; reflexivity | apply save_keeps]. }
    apply Hk.
  - eapply _update_name_name; eauto.
Qed.

Lemma update_info_try_photo_id env config info w r w' nm picture pid :
  _get_displayname config info = Ok nm ->
  vector_image info = Ok picture ->
  target_photo_id picture = Ok pid ->
  update_info_try env config info true w = (r, w') ->
  photo_id (self w') = pid.
Proof.
  intros Hn Hv Hp Ht. unfold update_info_try in Ht.
  apply bind_inv in Ht as [(c & w1 & H1 & H2)|(e & H1 & _)].
  2:{ destruct (decide (Some nm = name (self w))) as [Heq|Hne];
      [destruct (name_set (self w)) eqn:Hset|].
      - rewrite (_update_name_unchanged _ _ _ _ nm) in H1 by auto. discriminate.
      - rewrite (_update_name_changed _ _ _ _ nm) in H1 by auto. discriminate.
      - rewrite (_update_name_changed _ _ _ _ nm) in H1 by auto. discriminate. }
  rewrite Hv in H2.
  apply bind_inv in H2 as [(c2 & w2 & H2 & H3)|(e & H2 & _)].
  - revert H3.
    match goal with
    | |- ?m w2 = _ -> _ => assert (keeps photo_id m) as Hk
    end.
    { keeps_auto; try apply save_keeps. }
    intros H3. rewrite (Hk _ _ _ H3).
    rewrite bind_lift_ok in H2.
    apply bind_inv in H2 as [(c3 & w3 & H2 & H4)|(e & H2 & _)].
    + injection H4 as <- <-. eapply _update_photo_photo_id; eauto.
    + eapply _update_photo_photo_id; eauto.
  - rewrite bind_lift_ok in H2.
    apply bind_inv in H2 as [(c3 & w3 & H2 & H4)|(e' & H2 & _)].
    + discriminate.
    + eapply _update_photo_photo_id; eauto.
Qed.

(** When the puppet already carries what the profile asks for and both
    flags are set, the [try] body changes nothing and calls no one. *)
Lemma update_info_try_settled env config info update_avatar w :
  (forall nm, _get_displayname config info = Ok nm -> name (self w) = Some nm) ->
  name_set (self w) = true ->
  (forall nm picture pid,
     update_avatar = true ->
     _get_displayname config info = Ok nm ->
     vector_image info = Ok picture ->
     target_photo_id picture = Ok pid ->
     photo_id (self w) = pid) ->
  avatar_set (self w) = true ->
  exists r, update_info_try env config info update_avatar w = (r, w).
Proof.
  intros Hname Hnset Hphoto Haset. unfold update_info_try.
  destruct (_get_displayname config info) as [nm|e] eqn:Hn.
  2:{ rewrite (bind_raise _ _ _ _ _ (_update_name_raises _ _ _ _ e Hn)). eauto. }
  rewrite (bind_ok _ _ _ _ _
             (_update_name_unchanged _ _ _ _ nm Hn (Hname _ eq_refl) Hnset)).
  match goal with
  | |- exists r, (?m ≫= ?f) w = _ =>
      assert (m w = (Ok false, w) \/ exists e, m w = (Raise e, w))
        as [Hm|[e Hm]]
  end.
  { destruct update_avatar; [|left; reflexivity].
    destruct (vector_image info) as [picture|e] eqn:Hv; [|right; eauto].
    rewrite bind_lift_ok.
    destruct (target_photo_id picture) as [pid|e] eqn:Hp.
    - left.
      rewrite (bind_ok _ _ _ _ _ (_update_photo_unchanged _ _ _ pid Hp
                 (Hphoto _ _ _ eq_refl eq_refl eq_refl Hp) Haset)).
      reflexivity.
    - right. exists e.
      apply bind_raise, _update_photo_raises_early, Hp. }
  - rewrite (bind_ok _ _ _ _ _ Hm). simpl. eauto.
  - rewrite (bind_raise _ _ _ _ _ Hm). eauto.
Qed.

End UpdateInfo.

(** ** Display name *)

Lemma displayname_loop_skip {CR : ContainerRepr} (pre rest : list string) :
  "name" ∉ pre ->
  displayname_loop (pre ++ rest) (displayname_fields PNone PNone)
  = displayname_loop rest (displayname_fields PNone PNone).
Proof.
  induction pre as [|p pre IH]; intros Hpre; [reflexivity|].
  apply not_elem_of_cons in Hpre as [Hp Hpre]. simpl.
  assert (PyVal.truthy (dict_get p (displayname_fields PNone PNone)) = false)
    as ->; [|exact (IH Hpre)].
  unfold dict_get, displayname_fields, PyVal.assoc, Py.str_eqb.
  assert (String.eqb p "name" = false) as -> by (apply String.eqb_neq; congruence).
  repeat match goal with |- context [String.eqb p ?s] => destruct (String.eqb p s) end;
    reflexivity.
Qed.

(** C10: when the profile has neither [firstName] nor [lastName], the
    entry ["name"] is the text "None None"; the loop passes over every
    preference before the first ["name"], takes "None None" there, and
    leaves the preferences after it unvisited. *)
Theorem get_displayname_name_of_nameless {CR : ContainerRepr} (config : Config)
    (info : pyval) (d : list (string * pyval)) (pre post : list string) :
  PyVal.get info "miniProfile" (PDict []) = Ok (PDict d) ->
  PyVal.assoc "firstName" d = None ->
  PyVal.assoc "lastName" d = None ->
  bridge_displayname_preference config = (pre ++ "name" :: post)%list ->
  "name" ∉ pre ->
  dict_get "name" (displayname_fields PNone PNone) = PStr "None None"
  /\ displayname_loop (bridge_displayname_preference config)
       (displayname_fields PNone PNone)
     = ([("displayname", PStr "None None"); ("name", PStr "None None");
         ("first_name", PNone); ("last_name", PNone)], post)
  /\ _get_displayname config info
     = bridge_displayname_template config
         [("displayname", PStr "None None"); ("name", PStr "None None");
          ("first_name", PNone); ("last_name", PNone)].
Proof.
  intros Hprofile Hfirst Hlast Hpref Hpre.
  assert (displayname_loop (bridge_displayname_preference config)
            (displayname_fields PNone PNone)
          = ([("displayname", PStr "None None"); ("name", PStr "None None");
              ("first_name", PNone); ("last_name", PNone)], post)) as Hloop.
  { rewrite Hpref, displayname_loop_skip by exact Hpre. reflexivity. }
  split; [reflexivity|]. split; [exact Hloop|].
  unfold _get_displayname. rewrite Hprofile. simpl.
  rewrite Hfirst, Hlast. simpl. rewrite Hloop. reflexivity.
Qed.

Lemma get_displayname_name_of_nameless_witness :
  PyVal.get Sample.info_anonymous "miniProfile" (PDict [])
    = Ok (PDict [("entityUrn", PStr "urn:li:fs_miniProfile:1")])
  /\ _get_displayname (CR:=Sample.repr) Sample.config Sample.info_anonymous
     = Ok "None None (LinkedIn)".
Proof.
  split; [reflexivity|].
  exact (proj2 (proj2
    (get_displayname_name_of_nameless (CR:=Sample.repr) Sample.config
       Sample.info_anonymous [("entityUrn", PStr "urn:li:fs_miniProfile:1")]
       ["displayname"] ["first_name"]
       eq_refl eq_refl eq_refl eq_refl
       ltac:(intros Hin; apply list_elem_of_singleton in Hin; discriminate)))).
Defined.

(** ** Photo identifier *)

(** C8: the pattern matches the URL of scenario B, and group 1 of the
    match is "ABC123". *)
Theorem photo_id_re_scenario_b :
  let url :=
    "https://media.licdn.com/image/ABC123/profile-displayphoto-shrink_100_100" in
  exists m, Re.match_ photo_id_re url = Some m
            /\ Re.group1 url m = Some "ABC123".
Proof. eexists. split; vm_compute; reflexivity. Qed.

(** ** Profile synchroniser *)

(** C4: when the computed name differs from the stored one, or the name
    was not applied, and [set_displayname] raises, [_update_name] returns
    [True] without raising; the puppet carries the new name and
    [name_set] is false. *)
Theorem update_name_set_displayname_raises {CR : ContainerRepr} (env : Env)
    (config : Config) (info : pyval) (w : World) (nm : string) (e : exn) :
  _get_displayname config info = Ok nm ->
  Some nm <> name (self w) \/ name_set (self w) = false ->
  set_displayname env nm = Raise e ->
  exists w',
    _update_name env config info w = (Ok true, w')
    /\ name (self w') = Some nm
    /\ name_set (self w') = false
    /\ log w' = log w ++ ["Failed to set displayname"]
    /\ calls w' = calls w ++ [SetDisplayname nm].
Proof.
  intros Hn Hc He. eexists. split.
  - apply _update_name_changed; eassumption.
  - rewrite He. simpl. auto.
Qed.

Lemma update_name_set_displayname_raises_witness :
  exists w',
    _update_name (CR:=Sample.repr) Sample.env_no_displayname Sample.config
      Sample.info Sample.world = (Ok true, w')
    /\ name (self w') = Some "Ada Lovelace (LinkedIn)"
    /\ name_set (self w') = false
    /\ log w' = ["Failed to set displayname"]
    /\ calls w' = [SetDisplayname "Ada Lovelace (LinkedIn)"].
Proof.
  apply (update_name_set_displayname_raises (CR:=Sample.repr)
           Sample.env_no_displayname Sample.config Sample.info Sample.world
           "Ada Lovelace (LinkedIn)" (Failure "M_FORBIDDEN")).
  - reflexivity.
  - left. discriminate.
  - reflexivity.
Defined.

(** C7: with an empty info [update_info] returns the puppet as it is; the
    world (fields, timestamp, log, calls) is the one it started in. *)
Theorem update_info_empty_info {CR : ContainerRepr} (env : Env) (config : Config)
    (source : option User) (info : pyval) (update_avatar : bool) (w : World) :
  PyVal.truthy info = false ->
  update_info env config source info update_avatar w = (Ok (self w), w).
Proof. apply update_info_falsy. Qed.

Lemma update_info_empty_info_witness :
  PyVal.truthy (PDict []) = false
  /\ update_info (CR:=Sample.repr) Sample.env Sample.config None (PDict [])
       true Sample.world
     = (Ok Sample.puppet, Sample.world).
Proof.
  split; [reflexivity|].
  apply (update_info_empty_info (CR:=Sample.repr)). reflexivity.
Defined.

(** C6: if a call of [update_info] ends with [name_set] and [avatar_set]
    true, a second call with the same info leaves every persisted field
    as it is and calls no collaborator, so nothing is saved. *)
Theorem update_info_twice {CR : ContainerRepr} (env1 env2 : Env) (config : Config)
    (source1 source2 : option User) (info : pyval) (update_avatar : bool)
    (w : World) :
  let w1 := (update_info env1 config source1 info update_avatar w).2 in
  let w2 := (update_info env2 config source2 info update_avatar w1).2 in
  name_set (self w1) = true ->
  avatar_set (self w1) = true ->
  persisted (self w2) = persisted (self w1) /\ calls w2 = calls w1.
Proof.
  intros w1 w2 Hnset Haset. subst w2.
  destruct (PyVal.truthy info) eqn:Hi.
  2:{ rewrite (update_info_falsy env2) by exact Hi. auto. }
  (* what the first call left behind *)
  assert (forall nm, _get_displayname config info = Ok nm ->
                     name (self w1) = Some nm) as Hname.
  { intros nm Hn. subst w1. rewrite update_info_truthy by exact Hi.
    match goal with
    | |- context [(?m ≫= ?f) ?w0] => destruct ((m ≫= f) w0) as [r w'] eqn:Hr
    end.
    apply bind_inv in Hr as [(a & wa & H1 & H2)|(e & H1 & _)].
    - injection H2 as <- <-. simpl.
      apply try_except_inv in H1 as [(a' & H1 & _)|(e & wb & H1 & H2)].
      + eapply update_info_try_name; eauto.
      + rewrite (update_info_handler_keeps name _ _ _ _ H2).
        eapply update_info_try_name; eauto.
    - simpl.
      apply try_except_inv in H1 as [(a' & H1 & ?)|(e' & wb & H1 & H2)];
        [discriminate|].
      rewrite (update_info_handler_keeps name _ _ _ _ H2).
      eapply update_info_try_name; eauto. }
  assert (forall nm picture pid,
            update_avatar = true ->
            _get_displayname config info = Ok nm ->
            vector_image info = Ok picture ->
            target_photo_id picture = Ok pid ->
            photo_id (self w1) = pid) as Hphoto.
  { intros nm picture pid -> Hn Hv Hp. subst w1.
    rewrite update_info_truthy by exact Hi.
    match goal with
    | |- context [(?m ≫= ?f) ?w0] => destruct ((m ≫= f) w0) as [r w'] eqn:Hr
    end.
    apply bind_inv in Hr as [(a & wa & H1 & H2)|(e & H1 & _)].
    - injection H2 as <- <-. simpl.
      apply try_except_inv in H1 as [(a' & H1 & _)|(e & wb & H1 & H2)].
      + eapply update_info_try_photo_id; eauto.
      + rewrite (update_info_handler_keeps photo_id _ _ _ _ H2).
        eapply update_info_try_photo_id; eauto.
    - simpl.
      apply try_except_inv in H1 as [(a' & H1 & ?)|(e' & wb & H1 & H2)];
        [discriminate|].
      rewrite (update_info_handler_keeps photo_id _ _ _ _ H2).
      eapply update_info_try_photo_id; eauto. }
  (* the second call *)
  rewrite (update_info_truthy env2) by exact Hi.
  set (w1' := {| self := with_last_info_sync (Some (now env2)) (self w1);
                 log := log w1; calls := calls w1 |}).
  destruct (update_info_try_settled env2 config info update_avatar w1')
    as [r Hr]; try assumption.
  match goal with
  | |- context [(?m ≫= ?f) w1'] =>
      assert (exists r' w'', (m ≫= f) w1' = (r', w'')
                /\ self w'' = self w1' /\ calls w'' = calls w1')
        as (r' & w'' & -> & Hs & Hc)
  end.
  { unfold try_except, mbind, M_bind. rewrite Hr.
    destruct r as [[]|e]; simpl; [eauto|].
    destruct source2 as [u|]; simpl; eauto. }
  simpl. rewrite Hs, Hc. auto.
Qed.

Lemma update_info_twice_witness :
  let w1 := (update_info (CR:=Sample.repr) Sample.env Sample.config
               (Some Sample.user) Sample.info true Sample.world).2 in
  let w2 := (update_info (CR:=Sample.repr) Sample.env Sample.config
               (Some Sample.user) Sample.info true w1).2 in
  (name_set (self w1) = true /\ avatar_set (self w1) = true)
  /\ name (self w1) = Some "Ada Lovelace (LinkedIn)"
  /\ photo_id (self w1) = Some "ABC123"
  /\ persisted (self w2) = persisted (self w1) /\ calls w2 = calls w1.
Proof.
  split; [split; reflexivity|]. split; [reflexivity|]. split; [reflexivity|].
  apply (update_info_twice (CR:=Sample.repr) Sample.env Sample.env Sample.config
           (Some Sample.user) (Some Sample.user) Sample.info true Sample.world);
    reflexivity.
Defined.

(** C2 at a source of [None]: the image server refuses the download, the
    handler of [update_info] formats its message from
    [source.li_member_urn], and the [AttributeError] leaves
    [update_info]. *)
Theorem update_info_none_source_raises :
  (update_info (CR:=Sample.repr) Sample.env_no_download Sample.config None
     Sample.info true Sample.world).1
  = Raise AttributeError.
Proof. vm_compute. reflexivity. Qed.

(** When the download is refused, [_update_photo] raises after it has
    stored the new identifier; [photo_mxc] and [avatar_set] are as
    before. *)
Lemma _update_photo_download_refused (env : Env) (picture : pyval) (w : World)
    (pid : option string) (root artifacts artifact segment : pyval)
    (url : string) (response : Response) :
  PyVal.get picture "rootUrl" PNone = Ok root ->
  match_root_url root = Ok pid ->
  opt_truthy pid = true ->
  pid <> photo_id (self w) \/ avatar_set (self w) = false ->
  PyVal.getitem picture "artifacts" = Ok artifacts ->
  PyVal.getitem0 artifacts = Ok artifact ->
  PyVal.getitem artifact "fileIdentifyingUrlPathSegment" = Ok segment ->
  PyVal.str_add (as_str root) segment = Ok url ->
  requests_get env url = Ok response ->
  ok response = false ->
  _update_photo env picture w
  = (Raise (Failure "Couldn't download profile picture"),
     {| self := with_photo_id pid (self w);
        log := log w;
        calls := calls w ++ [RequestsGet url] |}).
Proof.
  intros Hr Hm Ht Hc Ha Ha0 Hs Hu Hg Hok. unfold _update_photo.
  rewrite Hr, bind_lift_ok, Hm, bind_lift_ok, bind_get_self.
  assert (negb (bool_decide (pid = photo_id (self w)))
          || negb (avatar_set (self w)) = true) as ->.
  { destruct Hc as [Hc|Hc].
    - rewrite bool_decide_eq_false_2 by exact Hc. reflexivity.
    - rewrite Hc. apply orb_true_r. }
  rewrite bind_set_self, Ht, Ha.
  unfold reupload_avatar. unfold_m. simpl.
  rewrite Ha0, Hs, Hu, Hg, Hok. reflexivity.
Qed.

(** C5 on a refused download: [photo_id] goes from "OLD" to "ABC123"
    while [photo_mxc] and [avatar_set] stay; the failure is logged and
    nothing is saved. *)
Theorem update_info_download_refused_photo_id :
  let w' := (update_info (CR:=Sample.repr) Sample.env_no_download Sample.config
               (Some Sample.user) Sample.info true Sample.world).2 in
  photo_id (self Sample.world) = Some "OLD"
  /\ photo_id (self w') = Some "ABC123"
  /\ photo_mxc (self w') = photo_mxc (self Sample.world)
  /\ avatar_set (self w') = avatar_set (self Sample.world)
  /\ log w' = ["Failed to update info from source ACoAAC"].
Proof. vm_compute. repeat split. Qed.

(** ** Registry *)

(** C9: an mxid that the template does not parse gives [None], and the
    registry (caches, heap, table and the list of accesses) is the one
    the call started with. *)
Theorem get_by_mxid_unparsed (config : Config) (mxid : string) (create : bool)
    (R : Registry) :
  get_id_from_mxid config mxid = None ->
  get_by_mxid config mxid create R = (Ok None, R).
Proof. intros Hp. unfold get_by_mxid. rewrite Hp. reflexivity. Qed.

Lemma get_by_mxid_unparsed_witness :
  get_id_from_mxid Sample.config "@linkedin_abc:example.com" = None
  /\ forall R, get_by_mxid Sample.config "@linkedin_abc:example.com" true R
               = (Ok None, R).
Proof.
  split; [reflexivity|].
  intros R. apply (get_by_mxid_unparsed Sample.config). reflexivity.
Defined.

(** ** Concurrent callers *)

Module TasksFacts.
Import Tasks.

Local Open Scope nat_scope.

Lemma store_load_urn urn rows row :
  store_load urn rows = Some row -> li_member_urn row = urn.
Proof.
  unfold store_load. intros Hf. apply List.find_some in Hf as [_ Hf].
  apply bool_decide_eq_true_1 in Hf. exact Hf.
Qed.

(** What a resumption is: the task takes the free lock of its key, or it
    holds the lock and runs its next segment. *)
Lemma resume_inv i S S' :
  resume i S = Some S' ->
  (exists k,
     tasks S !! i = Some (k, Waiting) /\ locks S !! k = None
     /\ S' = {| registry := registry S;
                locks := <[k := i]> (locks S);
                tasks := <[i := (k, Entered)]> (tasks S) |})
  \/ (exists k a a' R',
        tasks S !! i = Some (k, a) /\ running a = true
        /\ segment k true a (registry S) = (a', R')
        /\ S' = {| registry := R';
                   locks := (if returned a' then delete k (locks S) else locks S);
                   tasks := <[i := (k, a')]> (tasks S) |}).
Proof.
  unfold resume. destruct (tasks S !! i) as [[k a]|] eqn:Ht; [|discriminate].
  destruct a; cbn [running]; cbv iota.
  - destruct (locks S !! k) eqn:Hl; [discriminate|].
    intros Heq. simplify_eq. left. exists k. auto.
  - destruct (segment k true Entered (registry S)) as [a' R'] eqn:Hs.
    intros Heq. simplify_eq. right. exists k, Entered, a', R'. auto.
  - destruct (segment k true Loading (registry S)) as [a' R'] eqn:Hs.
    intros Heq. simplify_eq. right. exists k, Loading, a', R'. auto.
  - destruct (segment k true (Inserting r) (registry S)) as [a' R'] eqn:Hs.
    intros Heq. simplify_eq. right. exists k, (Inserting r), a', R'. auto.
  - discriminate.
  - discriminate.
Qed.

Lemma segment_inv k a R a' R' :
  running a = true -> segment k true a R = (a', R') ->
  segment_case k R a a' R'.
Proof.
  destruct a; simpl; try discriminate; intros _.
  - destruct (by_li_member_urn R !! k) eqn:Hc; intros [= <- <-];
      constructor; assumption.
  - destruct (store_load k (table R)) as [row|] eqn:Hl.
    + unfold construct.
      destruct (opt_truthy (custom_mxid row)) eqn:Hcm; intros [= <- <-].
      * eapply seg_refused; [eapply store_load_urn, Hl | exact Hcm].
      * eapply seg_loaded; [eapply store_load_urn, Hl | exact Hcm].
    + intros [= <- <-]. constructor.
  - destruct (heap R !! r) as [p|] eqn:Hh; intros [= <- <-].
    + econstructor. exact Hh.
    + constructor. exact Hh.
Qed.

Lemma add_to_cache_heap r R : heap (_add_to_cache r R) = heap R.
Proof. unfold _add_to_cache. destruct (heap R !! r); reflexivity. Qed.

Lemma add_to_cache_accesses r R : accesses (_add_to_cache r R) = accesses R.
Proof. unfold _add_to_cache. destruct (heap R !! r); reflexivity. Qed.

Lemma add_to_cache_by_urn r R p :
  heap R !! r = Some p ->
  by_li_member_urn (_add_to_cache r R)
  = <[li_member_urn p := r]> (by_li_member_urn R).
Proof. unfold _add_to_cache. intros ->. reflexivity. Qed.

Lemma count_access_record a R l :
  count_access a (record l R)
  = count_access a R + length (filter (fun b => b = a) l).
Proof. unfold count_access. simpl. rewrite filter_app, length_app. reflexivity. Qed.

Lemma count_access_allocate a R p :
  count_access a (allocate p R) = count_access a R.
Proof. reflexivity. Qed.

Lemma count_access_store_insert a R row :
  count_access a (store_insert row R)
  = count_access a R
    + length (filter (fun b => b = a) [StoreInsert (li_member_urn row)]).
Proof. unfold count_access. simpl. rewrite filter_app, length_app. reflexivity. Qed.

Lemma count_access_add_to_cache a r R :
  count_access a (_add_to_cache r R) = count_access a R.
Proof. unfold count_access. rewrite add_to_cache_accesses. reflexivity. Qed.

Lemma instances_allocate k R p :
  instances k (allocate p R)
  = instances k R ++ (if decide (li_member_urn p = k) then [p] else []).
Proof. unfold instances. simpl. rewrite filter_app. reflexivity. Qed.

Lemma instances_heap k R R' : heap R' = heap R -> instances k R' = instances k R.
Proof. unfold instances. intros ->. reflexivity. Qed.

Section Invariant.
Context (S : System) (HI : invariant S).

Lemma exclusive i j k a b :
  tasks S !! i = Some (k, a) -> running a = true ->
  tasks S !! j = Some (k, b) -> running b = true ->
  i = j.
Proof.
  intros Hi Ha Hj Hb.
  pose proof (inv_holder S HI _ _ _ Hi Ha) as H1.
  pose proof (inv_holder S HI _ _ _ Hj Hb) as H2.
  congruence.
Qed.

(** A key that is not cached and not being inserted has no object. *)
Lemma no_instance k :
  by_li_member_urn (registry S) !! k = None ->
  (forall i r, tasks S !! i <> Some (k, Inserting r)) ->
  instances k (registry S) = [].
Proof.
  intros Hc Ht. unfold instances.
  destruct (filter _ (heap (registry S))) as [|p l] eqn:Hf; [reflexivity|].
  assert (p ∈ filter (fun p => li_member_urn p = k) (heap (registry S))) as Hin
    by (rewrite Hf; left).
  apply list_elem_of_filter in Hin as [Hk Hin].
  apply list_elem_of_lookup in Hin as [r Hr].
  destruct (inv_owned S HI _ _ Hr) as [Hc'|[i Hi]].
  - rewrite Hk in Hc'. congruence.
  - rewrite Hk in Hi. exfalso. eapply Ht, Hi.
Qed.


Ltac task_cases H :=
  apply list_lookup_insert_Some in H as [(<- & H & _)|(? & H)];
  [simplify_eq|].

Lemma invariant_acquire i k :
  tasks S !! i = Some (k, Waiting) -> locks S !! k = None ->
  invariant {| registry := registry S;
               locks := <[k := i]> (locks S);
               tasks := <[i := (k, Entered)]> (tasks S) |}.
Proof.
  intros Hi Hl. destruct HI. constructor; simpl.
  - intros j k' a Hj Ha. task_cases Hj.
    + apply lookup_insert_eq.
    + pose proof (inv_holder0 _ _ _ Hj Ha) as Hh.
      rewrite lookup_insert_ne; [exact Hh | congruence].
  - intros k' j Hj. destruct (decide (k' = k)) as [->|Hne].
    + rewrite lookup_insert_eq in Hj. simplify_eq.
      exists Entered. split; [|reflexivity].
      apply list_lookup_insert_eq. eapply lookup_lt_Some, Hi.
    + rewrite lookup_insert_ne in Hj by congruence.
      destruct (inv_locked0 _ _ Hj) as (a & Ha & Hr).
      exists a. split; [|exact Hr].
      rewrite list_lookup_insert_ne; [exact Ha|].
      intros ->. rewrite Hi in Ha. by simplify_eq.
  - exact inv_cached0.
  - intros r p Hr. destruct (inv_owned0 _ _ Hr) as [Hc|[j Hj]]; [auto|].
    right. exists j. rewrite list_lookup_insert_ne; [exact Hj|].
    intros ->. congruence.
  - intros j k' a Hj Ha. task_cases Hj.
    + destruct Ha as [?|[? ?]]; discriminate.
    + eauto.
  - intros j k' r Hj. task_cases Hj. eauto.
  - intros j k' res Hj. task_cases Hj. eauto.
  - intros k'. destruct (inv_construct0 k') as [Hle Hpos]. split; [exact Hle|].
    intros H0. destruct (Hpos H0) as [Hc|(j & r & Hj)]; [auto|].
    right. exists j, r. rewrite list_lookup_insert_ne; [exact Hj|].
    intros ->. congruence.
  - exact inv_insert0.
  - exact inv_instances0.
Qed.


(** The lock bookkeeping when the holder returns or raises ... *)
Lemma holder_release i k a a' j k' b :
  tasks S !! i = Some (k, a) -> running a = true -> running a' = false ->
  <[i := (k, a')]> (tasks S) !! j = Some (k', b) ->
  running b = true ->
  delete k (locks S) !! k' = Some j.
Proof.
  intros Hi Ha Ha' Hj Hb. task_cases Hj; [congruence|].
  pose proof (inv_holder S HI _ _ _ Hi Ha) as H1.
  pose proof (inv_holder S HI _ _ _ Hj Hb) as H2.
  rewrite lookup_delete_ne; [exact H2 | congruence].
Qed.

Lemma locked_release i k a a' k' j :
  tasks S !! i = Some (k, a) -> running a = true ->
  delete k (locks S) !! k' = Some j ->
  exists b, <[i := (k, a')]> (tasks S) !! j = Some (k', b)
            /\ running b = true.
Proof.
  intros Hi Ha Hj. apply lookup_delete_Some in Hj as [Hne Hj].
  destruct (inv_locked S HI _ _ Hj) as (b & Hb & Hr).
  exists b. split; [|exact Hr].
  rewrite list_lookup_insert_ne; [exact Hb|].
  intros ->. congruence.
Qed.

(** ... and when it goes on to its next segment. *)
Lemma holder_keep i k a a' j k' b :
  tasks S !! i = Some (k, a) -> running a = true ->
  <[i := (k, a')]> (tasks S) !! j = Some (k', b) ->
  running b = true ->
  locks S !! k' = Some j.
Proof.
  intros Hi Ha Hj Hb. task_cases Hj.
  - exact (inv_holder S HI _ _ _ Hi Ha).
  - exact (inv_holder S HI _ _ _ Hj Hb).
Qed.

Lemma locked_keep i k a a' k' j :
  tasks S !! i = Some (k, a) -> running a = true -> running a' = true ->
  locks S !! k' = Some j ->
  exists b, <[i := (k, a')]> (tasks S) !! j = Some (k', b) /\ running b = true.
Proof.
  intros Hi Ha Ha' Hj.
  destruct (inv_locked S HI _ _ Hj) as (b & Hb & Hr).
  destruct (decide (j = i)) as [->|Hne].
  - exists a'. rewrite Hi in Hb. simplify_eq. split; [|exact Ha'].
    apply list_lookup_insert_eq. eapply lookup_lt_Some, Hi.
  - exists b. split; [|exact Hr].
    rewrite list_lookup_insert_ne; [exact Hb | congruence].
Qed.

(** No other task is inserting for the key of a running task. *)
Lemma inserting_is_me i k a j r :
  tasks S !! i = Some (k, a) -> running a = true ->
  tasks S !! j = Some (k, Inserting r) -> j = i /\ a = Inserting r.
Proof.
  intros Hi Ha Hj.
  assert (j = i) as -> by (eapply exclusive; eauto).
  split; [reflexivity | congruence].
Qed.

Lemma invariant_hit i k r :
  tasks S !! i = Some (k, Entered) ->
  by_li_member_urn (registry S) !! k = Some r ->
  invariant {| registry := record [CacheRead k] (registry S);
               locks := delete k (locks S);
               tasks := <[i := (k, Returned (Some r))]> (tasks S) |}.
Proof.
  intros Hi Hc. constructor; cbn [registry locks tasks].
  - intros j k' b. eapply holder_release; eauto.
  - intros k' j. eapply locked_release; eauto.
  - exact (inv_cached S HI).
  - intros r' p Hr. destruct (inv_owned S HI _ _ Hr) as [?|[j Hj]]; [auto|].
    right. exists j. rewrite list_lookup_insert_ne; [exact Hj|].
    intros ->. congruence.
  - intros j k' b Hj Hb. task_cases Hj.
    + destruct Hb as [?|[? ?]]; discriminate.
    + eapply (inv_miss S HI); eauto.
  - intros j k' r' Hj. task_cases Hj. eapply (inv_pending S HI); eauto.
  - intros j k' res Hj. task_cases Hj; [eauto|].
    eapply (inv_returned S HI); eauto.
  - intros k'. rewrite count_access_record.
    destruct (inv_construct S HI k') as [Hle Hpos].
    rewrite filter_cons, decide_False by discriminate. simpl.
    rewrite Nat.add_0_r. split; [exact Hle|].
    intros H0. destruct (Hpos H0) as [?|(j & r' & Hj)]; [auto|].
    right. exists j, r'. rewrite list_lookup_insert_ne; [exact Hj|].
    intros ->. congruence.
  - intros k'. rewrite count_access_record.
    rewrite filter_cons, decide_False by discriminate. simpl.
    rewrite Nat.add_0_r. exact (inv_insert S HI k').
  - exact (inv_instances S HI).
Qed.

(** The constructor refuses the loaded row: the caller raises, and the
    registry is as it was. *)
Lemma invariant_refused i k e :
  tasks S !! i = Some (k, Loading) ->
  invariant {| registry := registry S;
               locks := delete k (locks S);
               tasks := <[i := (k, Raised e)]> (tasks S) |}.
Proof.
  intros Hi. constructor; cbn [registry locks tasks].
  - intros j k' b. eapply holder_release; eauto.
  - intros k' j. eapply locked_release; eauto.
  - exact (inv_cached S HI).
  - intros r' p Hr. destruct (inv_owned S HI _ _ Hr) as [?|[j Hj]]; [auto|].
    right. exists j. rewrite list_lookup_insert_ne; [exact Hj|].
    intros ->. congruence.
  - intros j k' b Hj Hb. task_cases Hj.
    + destruct Hb as [?|[? ?]]; discriminate.
    + eapply (inv_miss S HI); eauto.
  - intros j k' r' Hj. task_cases Hj. eapply (inv_pending S HI); eauto.
  - intros j k' res Hj. task_cases Hj. eapply (inv_returned S HI); eauto.
  - intros k'. destruct (inv_construct S HI k') as [Hle Hpos].
    split; [exact Hle|].
    intros H0. destruct (Hpos H0) as [?|(j & r' & Hj)]; [auto|].
    right. exists j, r'. rewrite list_lookup_insert_ne; [exact Hj|].
    intros ->. congruence.
  - exact (inv_insert S HI).
  - exact (inv_instances S HI).
Qed.

Lemma invariant_miss i k :
  tasks S !! i = Some (k, Entered) ->
  by_li_member_urn (registry S) !! k = None ->
  invariant {| registry := record [CacheRead k; StoreLoad k] (registry S);
               locks := locks S;
               tasks := <[i := (k, Loading)]> (tasks S) |}.
Proof.
  intros Hi Hc. constructor; cbn [registry locks tasks].
  - intros j k' b. eapply holder_keep; eauto.
  - intros k' j. eapply locked_keep; eauto.
  - exact (inv_cached S HI).
  - intros r' p Hr. destruct (inv_owned S HI _ _ Hr) as [?|[j Hj]]; [auto|].
    right. exists j. rewrite list_lookup_insert_ne; [exact Hj|].
    intros ->. congruence.
  - intros j k' b Hj Hb. task_cases Hj; [exact Hc|].
    eapply (inv_miss S HI); eauto.
  - intros j k' r' Hj. task_cases Hj. eapply (inv_pending S HI); eauto.
  - intros j k' res Hj. task_cases Hj. eapply (inv_returned S HI); eauto.
  - intros k'. rewrite count_access_record.
    destruct (inv_construct S HI k') as [Hle Hpos].
    rewrite !filter_cons, !decide_False by discriminate. simpl.
    rewrite Nat.add_0_r. split; [exact Hle|].
    intros H0. destruct (Hpos H0) as [?|(j & r' & Hj)]; [auto|].
    right. exists j, r'. rewrite list_lookup_insert_ne; [exact Hj|].
    intros ->. congruence.
  - intros k'. rewrite count_access_record.
    rewrite !filter_cons, !decide_False by discriminate. simpl.
    rewrite Nat.add_0_r. exact (inv_insert S HI k').
  - exact (inv_instances S HI).
Qed.


Lemma lookup_extend (r : nat) (p q : Puppet) :
  heap (registry S) !! r = Some p -> (heap (registry S) ++ [q]) !! r = Some p.
Proof. intros Hr. apply lookup_app_l_Some, Hr. Qed.

Lemma lookup_extended (r : nat) (p q : Puppet) :
  (heap (registry S) ++ [q]) !! r = Some p ->
  heap (registry S) !! r = Some p
  \/ (r = length (heap (registry S)) /\ p = q).
Proof.
  intros Hr. apply lookup_app_Some in Hr as [Hr|[Hle Hr]]; [auto|].
  right. apply list_lookup_singleton_Some in Hr as [Hz ->].
  split; [lia | reflexivity].
Qed.

Lemma lookup_fresh (q : Puppet) :
  (heap (registry S) ++ [q]) !! length (heap (registry S)) = Some q.
Proof. apply list_lookup_middle. reflexivity. Qed.

Lemma invariant_construct i k :
  tasks S !! i = Some (k, Loading) ->
  invariant
    {| registry :=
         record [Construct k]
           (allocate (new_puppet k None None None false false) (registry S));
       locks := locks S;
       tasks := <[i := (k, Inserting (length (heap (registry S))))]> (tasks S) |}.
Proof.
  intros Hi.
  assert (by_li_member_urn (registry S) !! k = None) as Hc
    by (eapply (inv_miss S HI); eauto).
  assert (forall j r, tasks S !! j <> Some (k, Inserting r)) as Hnone.
  { intros j r Hj.
    destruct (inserting_is_me i k Loading j r Hi eq_refl Hj) as [_ ?].
    discriminate. }
  constructor; cbn [registry locks tasks].
  - intros j k' b. eapply holder_keep; eauto.
  - intros k' j. eapply locked_keep; eauto.
  - intros k' r Hr. destruct (inv_cached S HI _ _ Hr) as (p & Hp & Hk).
    exists p. split; [|exact Hk]. apply lookup_extend, Hp.
  - intros r p Hr. apply lookup_extended in Hr as [Hr|[-> ->]].
    + destruct (inv_owned S HI _ _ Hr) as [?|[j Hj]]; [auto|].
      right. exists j. rewrite list_lookup_insert_ne; [exact Hj|].
      intros ->. congruence.
    + right. exists i. apply list_lookup_insert_eq. eapply lookup_lt_Some, Hi.
  - intros j k' b Hj Hb. task_cases Hj; [exact Hc|].
    eapply (inv_miss S HI); eauto.
  - intros j k' r Hj. task_cases Hj.
    + eexists. split; [apply lookup_fresh | reflexivity].
    + destruct (inv_pending S HI _ _ _ Hj) as (p & Hp & Hk).
      exists p. split; [|exact Hk]. apply lookup_extend, Hp.
  - intros j k' res Hj. task_cases Hj. eapply (inv_returned S HI); eauto.
  - intros k'. rewrite count_access_record, count_access_allocate.
    destruct (inv_construct S HI k') as [Hle Hpos].
    rewrite filter_cons.
    destruct (decide (Construct k = Construct k')) as [Heq|Hne].
    + injection Heq as <-. cbn [length filter].
      assert (count_access (Construct k) (registry S) = 0) as ->.
      { destruct (count_access (Construct k) (registry S)) eqn:Hn;
          [reflexivity|].
        destruct Hpos as [[? ?]|(j & r & Hj)]; [lia | congruence |].
        exfalso. eapply Hnone, Hj. }
      split; [simpl; lia|]. intros _. right.
      exists i, (length (heap (registry S))).
      apply list_lookup_insert_eq. eapply lookup_lt_Some, Hi.
    + simpl. rewrite Nat.add_0_r. split; [exact Hle|].
      intros H0. destruct (Hpos H0) as [?|(j & r & Hj)]; [auto|].
      right. exists j, r. rewrite list_lookup_insert_ne; [exact Hj|].
      intros ->. congruence.
  - intros k'. rewrite count_access_record, count_access_allocate.
    rewrite filter_cons, decide_False by discriminate. simpl.
    rewrite Nat.add_0_r. exact (inv_insert S HI k').
  - intros k'. rewrite (instances_heap k' (allocate
       (new_puppet k None None None false false) (registry S)) _) by reflexivity.
    rewrite instances_allocate. cbn [li_member_urn new_puppet].
    destruct (decide (k = k')) as [<-|Hne].
    + rewrite (no_instance k Hc Hnone). simpl. lia.
    + rewrite app_nil_r. exact (inv_instances S HI k').
Qed.

Lemma invariant_loaded i k row :
  tasks S !! i = Some (k, Loading) ->
  li_member_urn row = k ->
  invariant
    {| registry :=
         _add_to_cache (length (heap (registry S))) (allocate row (registry S));
       locks := delete k (locks S);
       tasks := <[i := (k, Returned (Some (length (heap (registry S)))))]>
                  (tasks S) |}.
Proof.
  intros Hi Hrow.
  assert (by_li_member_urn (registry S) !! k = None) as Hc
    by (eapply (inv_miss S HI); eauto).
  assert (forall j r, tasks S !! j <> Some (k, Inserting r)) as Hnone.
  { intros j r Hj.
    destruct (inserting_is_me i k Loading j r Hi eq_refl Hj) as [_ ?].
    discriminate. }
  assert (by_li_member_urn
            (_add_to_cache (length (heap (registry S)))
               (allocate row (registry S)))
          = <[k := length (heap (registry S))]>
              (by_li_member_urn (registry S))) as Hcache.
  { rewrite (add_to_cache_by_urn _ _ row) by apply lookup_fresh.
    rewrite Hrow. reflexivity. }
  constructor; cbn [registry locks tasks];
    rewrite ?Hcache, ?add_to_cache_heap, ?count_access_add_to_cache,
      ?count_access_allocate; cbn [heap allocate].
  - intros j k' b. eapply holder_release; eauto.
  - intros k' j. eapply locked_release; eauto.
  - intros k' r Hr. apply lookup_insert_Some in Hr as [[<- <-]|[Hne Hr]].
    + exists row. split; [apply lookup_fresh | exact Hrow].
    + destruct (inv_cached S HI _ _ Hr) as (p & Hp & Hk).
      exists p. split; [|exact Hk]. apply lookup_extend, Hp.
  - intros r p Hr. apply lookup_extended in Hr as [Hr|[-> ->]].
    + destruct (inv_owned S HI _ _ Hr) as [Hl|[j Hj]].
      * left. rewrite lookup_insert_ne; [exact Hl | congruence].
      * right. exists j. rewrite list_lookup_insert_ne; [exact Hj|].
        intros ->. congruence.
    + left. rewrite Hrow. apply lookup_insert_eq.
  - intros j k' b Hj Hb. task_cases Hj.
    + destruct Hb as [?|[? ?]]; discriminate.
    + rewrite lookup_insert_ne; [eapply (inv_miss S HI); eauto|].
      intros <-. apply H.
      eapply (exclusive i j k Loading b); eauto.
      destruct Hb as [->|[? ->]]; reflexivity.
  - intros j k' r Hj. task_cases Hj.
    destruct (inv_pending S HI _ _ _ Hj) as (p & Hp & Hk).
    exists p. split; [|exact Hk]. apply lookup_extend, Hp.
  - intros j k' res Hj. task_cases Hj.
    + eexists. split; [reflexivity | apply lookup_insert_eq].
    + destruct (inv_returned S HI _ _ _ Hj) as (r & -> & Hr).
      exists r. split; [reflexivity|].
      rewrite lookup_insert_ne; [exact Hr | congruence].
  - intros k'. rewrite count_access_add_to_cache, count_access_allocate.
    destruct (inv_construct S HI k') as [Hle Hpos].
    split; [exact Hle|]. intros H0.
    destruct (Hpos H0) as [Hs|(j & r & Hj)].
    + left. rewrite lookup_insert_is_Some. destruct (decide (k = k')); auto.
    + right. exists j, r. rewrite list_lookup_insert_ne; [exact Hj|].
      intros ->. congruence.
  - intros k'. rewrite count_access_add_to_cache, count_access_allocate.
    destruct (inv_insert S HI k') as [Hle Hpos].
    split; [exact Hle|]. intros H0.
    rewrite lookup_insert_is_Some. destruct (decide (k = k')); auto.
  - intros k'. rewrite (instances_heap k' (allocate row (registry S)) _)
      by apply add_to_cache_heap.
    rewrite instances_allocate, Hrow.
    destruct (decide (k = k')) as [<-|Hne].
    + rewrite (no_instance k Hc Hnone). simpl. lia.
    + rewrite app_nil_r. exact (inv_instances S HI k').
Qed.

Lemma invariant_inserted i k r p :
  tasks S !! i = Some (k, Inserting r) ->
  heap (registry S) !! r = Some p ->
  invariant
    {| registry := _add_to_cache r (store_insert (persisted p) (registry S));
       locks := delete k (locks S);
       tasks := <[i := (k, Returned (Some r))]> (tasks S) |}.
Proof.
  intros Hi Hp.
  assert (by_li_member_urn (registry S) !! k = None) as Hc
    by (eapply (inv_miss S HI); eauto).
  assert (li_member_urn p = k) as Hk.
  { destruct (inv_pending S HI _ _ _ Hi) as (p' & Hp' & Hk'). congruence. }
  assert (by_li_member_urn
            (_add_to_cache r (store_insert (persisted p) (registry S)))
          = <[k := r]> (by_li_member_urn (registry S))) as Hcache.
  { rewrite (add_to_cache_by_urn _ _ p) by exact Hp. rewrite Hk. reflexivity. }
  constructor; cbn [registry locks tasks];
    rewrite ?Hcache, ?add_to_cache_heap, ?count_access_add_to_cache,
      ?count_access_store_insert; cbn [heap store_insert].
  - intros j k' b. eapply holder_release; eauto.
  - intros k' j. eapply locked_release; eauto.
  - intros k' r' Hr. apply lookup_insert_Some in Hr as [[<- <-]|[Hne Hr]].
    + eauto.
    + exact (inv_cached S HI _ _ Hr).
  - intros r' p' Hr. destruct (inv_owned S HI _ _ Hr) as [Hl|[j Hj]].
    + left. rewrite lookup_insert_ne; [exact Hl | congruence].
    + destruct (decide (j = i)) as [->|Hne].
      * left. rewrite Hi in Hj. simplify_eq. apply lookup_insert_eq.
      * right. exists j. rewrite list_lookup_insert_ne; [exact Hj | congruence].
  - intros j k' b Hj Hb. task_cases Hj.
    + destruct Hb as [?|[? ?]]; discriminate.
    + rewrite lookup_insert_ne; [eapply (inv_miss S HI); eauto|].
      intros <-. apply H.
      eapply (exclusive i j k (Inserting r) b); eauto.
      destruct Hb as [->|[? ->]]; reflexivity.
  - intros j k' r' Hj. task_cases Hj. exact (inv_pending S HI _ _ _ Hj).
  - intros j k' res Hj. task_cases Hj.
    + eexists. split; [reflexivity | apply lookup_insert_eq].
    + destruct (inv_returned S HI _ _ _ Hj) as (r' & -> & Hr).
      exists r'. split; [reflexivity|].
      rewrite lookup_insert_ne; [exact Hr | congruence].
  - intros k'. rewrite count_access_add_to_cache, count_access_store_insert.
    destruct (inv_construct S HI k') as [Hle Hpos].
    rewrite filter_cons, decide_False by discriminate. simpl.
    rewrite Nat.add_0_r. split; [exact Hle|]. intros H0.
    rewrite lookup_insert_is_Some.
    destruct (Hpos H0) as [Hs|(j & r' & Hj)].
    + left. destruct (decide (k = k')); auto.
    + destruct (decide (j = i)) as [->|Hne].
      * left. left. congruence.
      * right. exists j, r'.
        rewrite list_lookup_insert_ne; [exact Hj | congruence].
  - intros k'. rewrite count_access_add_to_cache, count_access_store_insert.
    destruct (inv_insert S HI k') as [Hle Hpos].
    rewrite filter_cons. cbn [li_member_urn persisted]. rewrite Hk.
    rewrite lookup_insert_is_Some.
    destruct (decide (StoreInsert k = StoreInsert k')) as [Heq|Hne].
    + injection Heq as <-. cbn [length filter].
      assert (count_access (StoreInsert k) (registry S) = 0) as ->.
      { destruct (count_access (StoreInsert k) (registry S)) eqn:Hn;
          [reflexivity|].
        destruct Hpos as [? ?]; [lia | congruence]. }
      split; [simpl; lia | auto].
    + simpl. rewrite Nat.add_0_r. split; [exact Hle|].
      intros H0. right. split; [congruence | auto].
  - intros k'. rewrite (instances_heap k' (registry S) _)
      by (rewrite add_to_cache_heap; reflexivity).
    exact (inv_instances S HI k').
Qed.

End Invariant.

Lemma invariant_initial rows keys : invariant (initial rows keys).
Proof.
  assert (forall i k a,
            tasks (initial rows keys) !! i = Some (k, a) -> a = Waiting) as Hw.
  { intros i k a Hi. unfold initial in Hi. cbn [tasks] in Hi.
    rewrite list_lookup_fmap in Hi.
    destruct (keys !! i); simpl in Hi; congruence. }
  constructor.
  - intros i k a Hi Ha. apply Hw in Hi as ->. discriminate.
  - intros k i Hl. simpl in Hl. rewrite lookup_empty in Hl. discriminate.
  - intros k r Hc. simpl in Hc. rewrite lookup_empty in Hc. discriminate.
  - intros r p Hr. simpl in Hr. rewrite lookup_nil in Hr. discriminate.
  - intros i k a Hi Ha. apply Hw in Hi as ->.
    destruct Ha as [?|[? ?]]; discriminate.
  - intros i k r Hi. apply Hw in Hi. discriminate.
  - intros i k res Hi. apply Hw in Hi. discriminate.
  - intros k. unfold count_access. simpl. split; lia.
  - intros k. unfold count_access. simpl. split; lia.
  - intros k. unfold instances. simpl. lia.
Qed.

Lemma invariant_resume i S S' :
  invariant S -> resume i S = Some S' -> invariant S'.
Proof.
  intros HI Hr.
  apply resume_inv in Hr
    as [(k & Hi & Hl & ->)|(k & a & a' & R' & Hi & Ha & Hs & ->)].
  - apply invariant_acquire; assumption.
  - apply segment_inv in Hs; [|exact Ha].
    destruct Hs; cbn [returned].
    + apply invariant_hit; assumption.
    + apply invariant_miss; assumption.
    + apply invariant_loaded; assumption.
    + apply invariant_refused; assumption.
    + apply invariant_construct; assumption.
    + apply invariant_inserted; assumption.
    + destruct (inv_pending S HI _ _ _ Hi) as (p & Hp & _). congruence.
Qed.

Lemma invariant_run schedule S : invariant S -> invariant (run schedule S).
Proof.
  revert S. induction schedule as [|i rest IH]; intros S HI; [exact HI|].
  simpl. apply IH. destruct (resume i S) as [S'|] eqn:Hr; simpl.
  - eapply invariant_resume; eauto.
  - exact HI.
Qed.






End TasksFacts.


(** * Further properties *)

(** ** Identifier mapper: the shape of an mxid *)

Module TemplateFacts.

Lemma str_take_drop (n : nat) (s : string) :
  Py.str_take n s +:+ Py.str_drop n s = s.
Proof.
  revert s. induction n as [|n IH]; intros [|c s]; try reflexivity.
  simpl. rewrite PyFacts.app_cons. f_equal. apply IH.
Qed.

Lemma str_drop_length (n : nat) (s : string) :
  String.length (Py.str_drop n s) = (String.length s - n)%nat.
Proof.
  revert s. induction n as [|n IH]; intros [|c s]; simpl; try lia. apply IH.
Qed.

Lemma str_drop_drop (n m : nat) (s : string) :
  Py.str_drop m (Py.str_drop n s) = Py.str_drop (n + m) s.
Proof.
  revert s. induction n as [|n IH]; intros s.
  - reflexivity.
  - destruct s as [|c s]; simpl; [destruct m; reflexivity | apply IH].
Qed.

Lemma str_take_ge (n : nat) (s : string) :
  (String.length s <= n)%nat -> Py.str_take n s = s.
Proof.
  revert s. induction n as [|n IH]; intros [|c s] Hn; simpl in *;
    try reflexivity; try lia.
  f_equal. apply IH. lia.
Qed.

(** [(p + rest)[len(p):] == rest] *)
Lemma slice_from (p rest : string) :
  Py.slice (p +:+ rest) (Some (Py.len p)) None = rest.
Proof.
  unfold Py.slice, Py.slice_index. rewrite PyFacts.len_app.
  pose proof (PyFacts.len_nonneg p). pose proof (PyFacts.len_nonneg rest).
  destruct (Z.ltb_spec (Py.len p) 0); [lia|].
  replace (Z.min (Py.len p + Py.len rest) (Py.len p)) with (Py.len p) by lia.
  replace (Py.len p + Py.len rest - Py.len p) with (Py.len rest) by lia.
  rewrite !PyFacts.to_nat_len, PyFacts.str_drop_app. apply PyFacts.str_take_all.
Qed.

Lemma starts_with_app (p s : string) : Py.starts_with p (p +:+ s) = true.
Proof.
  induction p as [|c p IH]; [reflexivity|].
  rewrite PyFacts.app_cons. simpl. rewrite Ascii.eqb_refl. exact IH.
Qed.

Lemma find_from_hit (sub s : string) (i : Z) :
  Py.starts_with sub s = true -> Py.find_from sub s i = i.
Proof. intros H. destruct s; simpl; rewrite H; reflexivity. Qed.

Lemma find_from_miss (sub : string) (c : Ascii.ascii) (s : string) (i : Z) :
  Py.starts_with sub (String c s) = false ->
  Py.find_from sub (String c s) i = Py.find_from sub s (i + 1).
Proof. intros H. cbn [Py.find_from]. rewrite H. reflexivity. Qed.

(** Text without a brace does not hold the placeholder, so the search
    finds the placeholder right behind it. *)
Lemma find_from_placeholder (a kw rest : string) (i : Z) :
  0 <= i ->
  Py.find_from "{" a i = -1 ->
  Py.find_from ("{" +:+ kw +:+ "}") (a +:+ ("{" +:+ kw +:+ "}") +:+ rest) i
  = i + Py.len a.
Proof.
  revert i. induction a as [|c a IH]; intros i Hi Hf.
  - change ("" +:+ ("{" +:+ kw +:+ "}") +:+ rest)
      with (("{" +:+ kw +:+ "}") +:+ rest).
    rewrite find_from_hit by apply starts_with_app.
    unfold Py.len. simpl. lia.
  - assert (forall x y, Py.starts_with (String brace x) (String c y)
                        = if Ascii.eqb brace c then Py.starts_with x y else false)
      as Hstep by reflexivity.
    assert (Ascii.eqb brace c = false) as Hc.
    { destruct (Ascii.eqb brace c) eqn:Hc; [|reflexivity].
      rewrite find_from_hit in Hf; [lia|].
      change "{" with (String brace ""). rewrite Hstep. reflexivity. }
    rewrite find_from_miss in Hf
      by (change "{" with (String brace ""); rewrite Hstep, Hc; reflexivity).
    rewrite (PyFacts.app_cons c a), find_from_miss.
    + rewrite IH by (first [lia | exact Hf]).
      unfold Py.len. simpl String.length. lia.
    + change ("{" +:+ kw +:+ "}") with (String brace (kw +:+ "}")) at 1.
      rewrite Hstep, Hc. reflexivity.
Qed.

End TemplateFacts.

(** X1: with a username template [a{userid}b] whose text [a] holds no
    brace, the mxid of a key is ["@" a key b ":" domain]. *)
Theorem get_mxid_from_id_shape (config : Config) (a b k : string) :
  bridge_username_template config = a +:+ "{userid}" +:+ b ->
  Py.find a "{" = -1 ->
  get_mxid_from_id config k
  = "@" +:+ a +:+ k +:+ b +:+ ":" +:+ homeserver_domain config.
Proof.
  intros Ht Ha.
  unfold get_mxid_from_id, SimpleTemplate.format_full, mxid_template,
    SimpleTemplate.make. cbn [SimpleTemplate.prefix SimpleTemplate.suffix].
  rewrite Ht.
  assert (Py.find (a +:+ "{userid}" +:+ b) ("{" +:+ "userid" +:+ "}")
          = Py.len a) as ->.
  { exact (TemplateFacts.find_from_placeholder a "userid" b 0
             (Z.le_refl 0) Ha). }
  rewrite PyFacts.slice_prefix.
  replace (Py.len a + (Py.len "userid" + 2)) with (Py.len (a +:+ "{userid}"))
    by (rewrite PyFacts.len_app; reflexivity).
  rewrite <- (PyFacts.app_assoc a "{userid}" b), TemplateFacts.slice_from.
  rewrite !PyFacts.app_assoc. reflexivity.
Qed.

Lemma get_mxid_from_id_shape_witness :
  get_mxid_from_id Sample.config "ACoAAB" = "@linkedin_ACoAAB:example.org".
Proof.
  apply (get_mxid_from_id_shape Sample.config "linkedin_" "" "ACoAAB");
    reflexivity.
Defined.

(** X2: an mxid that parses to a key, and is long enough to hold both the
    prefix and the suffix of the template, is the mxid of that key. *)
Theorem get_mxid_from_id_get_id_from_mxid (config : Config) (mxid k : string) :
  get_id_from_mxid config mxid = Some k ->
  Py.len (SimpleTemplate.prefix (mxid_template config))
  + Py.len (SimpleTemplate.suffix (mxid_template config)) <= Py.len mxid ->
  get_mxid_from_id config k = mxid.
Proof.
  unfold get_id_from_mxid, get_mxid_from_id, SimpleTemplate.parse,
    SimpleTemplate.format_full, Py.str_eqb.
  set (p := SimpleTemplate.prefix (mxid_template config)).
  set (s := SimpleTemplate.suffix (mxid_template config)).
  intros Hparse Hlen.
  pose proof (PyFacts.len_nonneg p) as Hp0.
  pose proof (PyFacts.len_nonneg s) as Hs0.
  destruct (String.eqb_spec (Py.slice mxid None (Some (Py.len p))) p)
    as [Hpre|]; [|discriminate].
  assert (Py.str_take (String.length p) mxid = p) as Htake.
  { revert Hpre. unfold Py.slice, Py.slice_index.
    destruct (Z.ltb_spec (Py.len p) 0); [lia|].
    replace (Z.min (Py.len mxid) (Py.len p) - 0) with (Py.len p) by lia.
    rewrite PyFacts.to_nat_len. simpl. auto. }
  destruct (Z.ltb_spec 0 (Py.len s)) as [Hs|Hs]; cbn [negb orb andb] in Hparse.
  - destruct (String.eqb_spec (Py.slice mxid (Some (- Py.len s)) None) s)
      as [Hsuf|]; [|discriminate].
    injection Hparse as <-.
    assert (Py.str_drop (String.length mxid - String.length s) mxid = s)
      as Hdrop.
    { revert Hsuf. unfold Py.slice, Py.slice_index.
      destruct (Z.ltb_spec (- Py.len s) 0); [|lia].
      replace (Z.max 0 (Py.len mxid + - Py.len s))
        with (Py.len mxid - Py.len s) by lia.
      replace (Py.len mxid - (Py.len mxid - Py.len s)) with (Py.len s) by lia.
      rewrite PyFacts.to_nat_len.
      replace (Z.to_nat (Py.len mxid - Py.len s))
        with (String.length mxid - String.length s)%nat
        by (unfold Py.len; lia).
      intros Heq. rewrite <- Heq at 2. symmetry. apply TemplateFacts.str_take_ge.
      rewrite TemplateFacts.str_drop_length. unfold Py.len in *. lia. }
    unfold Py.slice, Py.slice_index.
    destruct (Z.ltb_spec (Py.len p) 0); [lia|].
    destruct (Z.ltb_spec (- Py.len s) 0); [|lia].
    replace (Z.min (Py.len mxid) (Py.len p)) with (Py.len p) by lia.
    replace (Z.max 0 (Py.len mxid + - Py.len s) - Py.len p)
      with (Py.len mxid - Py.len s - Py.len p) by lia.
    rewrite PyFacts.to_nat_len.
    replace (Z.to_nat (Py.len mxid - Py.len s - Py.len p))
      with (String.length mxid - String.length s - String.length p)%nat
      by (unfold Py.len; lia).
    set (n := (String.length mxid - String.length s - String.length p)%nat).
    symmetry.
    rewrite <- (TemplateFacts.str_take_drop (String.length p) mxid) at 1.
    rewrite Htake. f_equal.
    rewrite <- (TemplateFacts.str_take_drop n
                  (Py.str_drop (String.length p) mxid)) at 1.
    f_equal. rewrite TemplateFacts.str_drop_drop.
    replace (String.length p + n)%nat
      with (String.length mxid - String.length s)%nat
      by (unfold n, Py.len in *; lia).
    exact Hdrop.
  - assert (s = "") as Hs' by (apply PyFacts.len_zero; lia).
    cbn [negb orb andb] in Hparse. injection Hparse as <-.
    rewrite Hs', PyFacts.app_empty_r.
    unfold Py.slice, Py.slice_index.
    destruct (Z.ltb_spec (Py.len p) 0); [lia|].
    destruct (Z.ltb_spec (Py.len mxid) 0);
      [pose proof (PyFacts.len_nonneg mxid); lia|].
    replace (Z.min (Py.len mxid) (Py.len p)) with (Py.len p) by lia.
    replace (Z.min (Py.len mxid) (Py.len mxid) - Py.len p)
      with (Py.len mxid - Py.len p) by lia.
    rewrite PyFacts.to_nat_len.
    rewrite (TemplateFacts.str_take_ge _ (Py.str_drop _ mxid))
      by (rewrite TemplateFacts.str_drop_length; unfold Py.len; lia).
    symmetry.
    rewrite <- (TemplateFacts.str_take_drop (String.length p) mxid) at 1.
    rewrite Htake. reflexivity.
Qed.

Lemma get_mxid_from_id_get_id_from_mxid_witness :
  get_id_from_mxid Sample.config "@linkedin_ACoAAB:example.org" = Some "ACoAAB"
  /\ get_mxid_from_id Sample.config "ACoAAB" = "@linkedin_ACoAAB:example.org".
Proof.
  split; [reflexivity|].
  apply (get_mxid_from_id_get_id_from_mxid Sample.config
           "@linkedin_ACoAAB:example.org" "ACoAAB").
  - reflexivity.
  - vm_compute. discriminate.
Defined.

(** ** Display name: how the preference list is used *)

Lemma displayname_loop_falsy (pre rest : list string)
    (fields : list (string * pyval)) :
  Forall (fun q => PyVal.truthy (dict_get q fields) = false) pre ->
  displayname_loop (pre ++ rest) fields = displayname_loop rest fields.
Proof.
  induction 1 as [|q pre Hq _ IH]; [reflexivity|].
  simpl. rewrite Hq. exact IH.
Qed.

(** X3: [_get_displayname] passes over the preferences that name an empty
    entry, puts the first non-empty one under ["displayname"] and hands the
    four fields to the template; the preferences behind it are not
    visited. *)
Theorem get_displayname_first_truthy {CR : ContainerRepr} (config : Config)
    (info profile first last : pyval) (pre post : list string) (p : string) :
  let fields := displayname_fields first last in
  PyVal.get info "miniProfile" (PDict []) = Ok profile ->
  PyVal.get profile "firstName" PNone = Ok first ->
  PyVal.get profile "lastName" PNone = Ok last ->
  bridge_displayname_preference config = pre ++ p :: post ->
  Forall (fun q => PyVal.truthy (dict_get q fields) = false) pre ->
  PyVal.truthy (dict_get p fields) = true ->
  displayname_loop (bridge_displayname_preference config) fields
  = (dict_set "displayname" (dict_get p fields) fields, post)
  /\ _get_displayname config info
     = bridge_displayname_template config
         [("displayname", dict_get p fields);
          ("name", PStr (PyVal.str first +:+ " " +:+ PyVal.str last));
          ("first_name", first); ("last_name", last)].
Proof.
  intros fields Hprofile Hfirst Hlast Hpref Hpre Hp.
  assert (displayname_loop (bridge_displayname_preference config) fields
          = (dict_set "displayname" (dict_get p fields) fields, post)) as Hloop.
  { rewrite Hpref, displayname_loop_falsy by exact Hpre.
    simpl. rewrite Hp. reflexivity. }
  split; [exact Hloop|].
  unfold _get_displayname. rewrite Hprofile. simpl.
  rewrite Hfirst, Hlast. simpl. fold fields. rewrite Hloop. reflexivity.
Qed.

Lemma get_displayname_first_truthy_witness :
  _get_displayname (CR:=Sample.repr) Sample.config Sample.info
  = Ok "Ada Lovelace (LinkedIn)".
Proof.
  refine (proj2 (get_displayname_first_truthy (CR:=Sample.repr) Sample.config
            Sample.info _ (PStr "Ada") (PStr "Lovelace")
            ["displayname"] ["first_name"] "name"
            eq_refl eq_refl eq_refl eq_refl _ eq_refl)).
  repeat constructor.
Defined.

(** X4: when no preference names a non-empty entry (an empty preference
    list, or a profile without the preferred fields), ["displayname"]
    stays [None] and the template is given [None] for it. *)
Theorem get_displayname_no_preference {CR : ContainerRepr} (config : Config)
    (info profile first last : pyval) :
  let fields := displayname_fields first last in
  PyVal.get info "miniProfile" (PDict []) = Ok profile ->
  PyVal.get profile "firstName" PNone = Ok first ->
  PyVal.get profile "lastName" PNone = Ok last ->
  Forall (fun q => PyVal.truthy (dict_get q fields) = false)
    (bridge_displayname_preference config) ->
  _get_displayname config info
  = bridge_displayname_template config
      [("displayname", PNone);
       ("name", PStr (PyVal.str first +:+ " " +:+ PyVal.str last));
       ("first_name", first); ("last_name", last)].
Proof.
  intros fields Hprofile Hfirst Hlast Hpre.
  unfold _get_displayname. rewrite Hprofile. simpl.
  rewrite Hfirst, Hlast. simpl. fold fields.
  rewrite <- (app_nil_r (bridge_displayname_preference config)).
  rewrite displayname_loop_falsy by exact Hpre. reflexivity.
Qed.

Lemma get_displayname_no_preference_witness :
  _get_displayname (CR:=Sample.repr)
       {| homeserver_domain := "example.org";
          bridge_username_template := "linkedin_{userid}";
          bridge_displayname_preference := ["first_name"; "nickname"];
          bridge_displayname_template :=
            Sample.format (CR:=Sample.repr) [Sample.Field "displayname"] |}
       (PDict [("miniProfile", PDict [("lastName", PStr "Lovelace")])])
  = Ok "None".
Proof.
  refine (get_displayname_no_preference (CR:=Sample.repr)
            {| homeserver_domain := "example.org";
               bridge_username_template := "linkedin_{userid}";
               bridge_displayname_preference := ["first_name"; "nickname"];
               bridge_displayname_template :=
                 Sample.format (CR:=Sample.repr) [Sample.Field "displayname"] |}
            (PDict [("miniProfile", PDict [("lastName", PStr "Lovelace")])])
            (PDict [("lastName", PStr "Lovelace")]) PNone
            (PStr "Lovelace") eq_refl eq_refl eq_refl _).
  repeat constructor.
Defined.

(** X5: a [miniProfile] that is not a dictionary makes [_get_displayname]
    raise [AttributeError]; [update_info], given a source, logs it and
    returns the puppet with nothing but the timestamp touched and no
    collaborator called. *)
Theorem update_info_malformed_profile {CR : ContainerRepr} (env : Env)
    (config : Config) (u : User) (info profile : pyval) (update_avatar : bool)
    (w : World) :
  PyVal.get info "miniProfile" (PDict []) = Ok profile ->
  (forall d, profile <> PDict d) ->
  let p' := with_last_info_sync (Some (now env)) (self w) in
  _get_displayname config info = Raise AttributeError
  /\ update_info env config (Some u) info update_avatar w
     = (Ok p',
        {| self := p';
           log := log w ++ ["Failed to update info from source "
                            +:+ default "None" (user_li_member_urn u)];
           calls := calls w |}).
Proof.
  intros Hprofile Hnd p'.
  assert (_get_displayname config info = Raise AttributeError) as Hn.
  { unfold _get_displayname. rewrite Hprofile. simpl.
    destruct profile; try reflexivity. exfalso. eapply Hnd. reflexivity. }
  split; [exact Hn|].
  assert (PyVal.truthy info = true) as Hi.
  { destruct info as [| | | | |d]; try discriminate.
    destruct d; [|reflexivity].
    simpl in Hprofile. injection Hprofile as <-. exfalso. eapply Hnd.
    reflexivity. }
  rewrite update_info_truthy by exact Hi.
  unfold try_except, mbind, M_bind at 1.
  unfold update_info_try.
  rewrite (bind_raise _ _ _ _ _ (_update_name_raises _ _ _ _ _ Hn)).
  reflexivity.
Qed.

Lemma update_info_malformed_profile_witness :
  update_info (CR:=Sample.repr) Sample.env Sample.config (Some Sample.user)
    (PDict [("miniProfile", PNone)]) true Sample.world
  = (Ok (with_last_info_sync (Some 1700000000) Sample.puppet),
     {| self := with_last_info_sync (Some 1700000000) Sample.puppet;
        log := ["Failed to update info from source ACoAAC"];
        calls := [] |}).
Proof.
  refine (proj2 (update_info_malformed_profile (CR:=Sample.repr) Sample.env
            Sample.config Sample.user (PDict [("miniProfile", PNone)]) PNone
            true Sample.world eq_refl _)).
  discriminate.
Defined.

(** ** Pushing a name *)

(** X6: when a name is due and [set_displayname] answers, [_update_name]
    stores the name, sets [name_set], reports a change, and has made this
    one call. *)
Theorem update_name_applied {CR : ContainerRepr} (env : Env) (config : Config)
    (info : pyval) (w : World) (nm : string) :
  _get_displayname config info = Ok nm ->
  Some nm <> name (self w) \/ name_set (self w) = false ->
  set_displayname env nm = Ok tt ->
  _update_name env config info w
  = (Ok true,
     {| self := with_name_set true (with_name (Some nm) (self w));
        log := log w;
        calls := calls w ++ [SetDisplayname nm] |}).
Proof.
  intros Hn Hc Hs. rewrite (_update_name_changed _ _ _ _ nm Hn Hc), Hs.
  rewrite app_nil_r. reflexivity.
Qed.

Lemma update_name_applied_witness :
  _update_name (CR:=Sample.repr) Sample.env Sample.config Sample.info
    Sample.world
  = (Ok true,
     {| self := with_name_set true
                  (with_name (Some "Ada Lovelace (LinkedIn)") Sample.puppet);
        log := [];
        calls := [SetDisplayname "Ada Lovelace (LinkedIn)"] |}).
Proof.
  apply (update_name_applied (CR:=Sample.repr) Sample.env Sample.config
           Sample.info Sample.world "Ada Lovelace (LinkedIn)").
  - reflexivity.
  - left. discriminate.
  - reflexivity.
Defined.

(** ** Which collaborators a computation calls *)

Module Trace.

Section Emits.
Context (P : call -> Prop).

Lemma emits_silent {A} (m : M World A) :
  (forall w r w', m w = (r, w') -> calls w' = calls w) -> emits P m.
Proof.
  intros Hm w r w' Hr. exists []. rewrite app_nil_r. split; [eauto | constructor].
Qed.

Lemma emits_ret {A} (a : A) : emits P (mret a).
Proof. apply emits_silent. intros w r w' [= <- <-]. reflexivity. Qed.

Lemma emits_raise {A} e : emits P (raise (A:=A) e).
Proof. apply emits_silent. intros w r w' [= <- <-]. reflexivity. Qed.

Lemma emits_lift {A} (x : result A) : emits P (lift x).
Proof. apply emits_silent. intros w r w' [= <- <-]. reflexivity. Qed.

Lemma emits_get_self : emits P get_self.
Proof. apply emits_silent. intros w r w' [= <- <-]. reflexivity. Qed.

Lemma emits_set_self f : emits P (set_self f).
Proof. apply emits_silent. intros w r w' [= <- <-]. reflexivity. Qed.

Lemma emits_log msg : emits P (log_exception msg).
Proof. apply emits_silent. intros w r w' [= <- <-]. reflexivity. Qed.

Lemma emits_perform {A} c (x : result A) : P c -> emits P (perform c x).
Proof.
  intros Hc w r w' [= <- <-]. exists [c]. split; [reflexivity|].
  constructor; [exact Hc | constructor].
Qed.

Lemma emits_bind {A B} (m : M World A) (f : A -> M World B) :
  emits P m -> (forall a, emits P (f a)) -> emits P (m ≫= f).
Proof.
  intros Hm Hf w r w' Hb.
  destruct (bind_inv _ _ _ _ _ Hb) as [(a & w1 & H1 & H2)|(e & H1 & _)].
  - destruct (Hm _ _ _ H1) as (l1 & E1 & F1).
    destruct (Hf _ _ _ _ H2) as (l2 & E2 & F2).
    exists (l1 ++ l2). rewrite E2, E1, app_assoc. split; [reflexivity|].
    apply Forall_app. auto.
  - eapply Hm, H1.
Qed.

Lemma emits_try {A} (body handler : M World A) :
  emits P body -> emits P handler -> emits P (try_except body handler).
Proof.
  intros Hb Hh w r w' Ht.
  destruct (try_except_inv _ _ _ _ _ Ht) as [(a & H1 & _)|(e & w1 & H1 & H2)].
  - eapply Hb, H1.
  - destruct (Hb _ _ _ H1) as (l1 & E1 & F1).
    destruct (Hh _ _ _ H2) as (l2 & E2 & F2).
    exists (l1 ++ l2). rewrite E2, E1, app_assoc. split; [reflexivity|].
    apply Forall_app. auto.
Qed.

Lemma emits_if {A} (b : bool) (m1 m2 : M World A) :
  emits P m1 -> emits P m2 -> emits P (if b then m1 else m2).
Proof. destruct b; auto. Qed.

End Emits.

Ltac emits_step :=
  first
    [ apply emits_bind; [|intros ?]
    | apply emits_try
    | apply emits_if
    | apply emits_ret
    | apply emits_raise
    | apply emits_lift
    | apply emits_get_self
    | apply emits_set_self
    | apply emits_log
    | apply emits_perform; reflexivity ].

Ltac emits_auto := repeat emits_step.

End Trace.
Import Trace.

Lemma _update_name_emits {CR : ContainerRepr} env config info :
  emits (fun c => is_save c = false /\ is_avatar_call c = false)
    (_update_name env config info).
Proof.
  unfold _update_name.
  repeat first [ apply emits_perform; split; reflexivity | emits_step ].
Qed.

Lemma _update_photo_emits env picture :
  emits (fun c => is_save c = false) (_update_photo env picture).
Proof. unfold _update_photo, reupload_avatar. emits_auto. Qed.

Lemma update_info_handler_emits P source : emits P (update_info_handler source).
Proof. unfold update_info_handler. destruct source; emits_auto. Qed.

(** ** The synchroniser as a whole *)

Lemma update_info_keeps {CR : ContainerRepr} {B} (g : Puppet -> B)
    env config source info update_avatar :
  (forall v p, g (with_last_info_sync v p) = g p) ->
  (forall v p, g (with_name v p) = g p) ->
  (forall v p, g (with_name_set v p) = g p) ->
  (update_avatar = true ->
   (forall v p, g (with_photo_id v p) = g p)
   /\ (forall v p, g (with_photo_mxc v p) = g p)
   /\ (forall v p, g (with_avatar_set v p) = g p)) ->
  keeps g (update_info env config source info update_avatar).
Proof.
  intros H1 H2 H3 H4. unfold update_info, update_info_try, _update_name.
  destruct update_avatar.
  - destruct (H4 eq_refl) as (H5 & H6 & H7).
    repeat first
      [ apply keeps_set_self; intros ?; solve [auto]
      | apply _update_photo_keeps_with; solve [auto]
      | apply save_keeps
      | apply update_info_handler_keeps
      | keeps_step ].
  - repeat first
      [ apply keeps_set_self; intros ?; solve [auto]
      | apply save_keeps
      | apply update_info_handler_keeps
      | keeps_step ].
Qed.

(** X7: whatever the profile and whatever the collaborators answer,
    [update_info] leaves the key of the puppet, its custom mxid, its sync
    token and its registration flag as they are. *)
Theorem update_info_keeps_identity {CR : ContainerRepr} (env : Env)
    (config : Config) (source : option User) (info : pyval)
    (update_avatar : bool) (w : World) :
  let w' := (update_info env config source info update_avatar w).2 in
  li_member_urn (self w') = li_member_urn (self w)
  /\ custom_mxid (self w') = custom_mxid (self w)
  /\ next_batch (self w') = next_batch (self w)
  /\ is_registered (self w') = is_registered (self w).
Proof.
  intros w'.
  assert (keeps (fun p => (li_member_urn p, custom_mxid p, next_batch p,
                           is_registered p))
            (update_info env config source info update_avatar)) as Hk.
  { apply update_info_keeps; try (intros ? []; reflexivity).
    intros _. repeat split; intros ? []; reflexivity. }
  specialize (Hk w _ _ (surjective_pairing _)).
  fold w' in Hk. simpl in Hk. injection Hk as -> -> -> ->. auto.
Qed.

(** X8: with [update_avatar] false, [update_info] neither changes
    [photo_id], [photo_mxc] or [avatar_set] nor fetches, uploads or sets an
    avatar. *)
Theorem update_info_without_avatar {CR : ContainerRepr} (env : Env)
    (config : Config) (source : option User) (info : pyval) (w : World) :
  let w' := (update_info env config source info false w).2 in
  photo_id (self w') = photo_id (self w)
  /\ photo_mxc (self w') = photo_mxc (self w)
  /\ avatar_set (self w') = avatar_set (self w)
  /\ exists l, calls w' = calls w ++ l
               /\ Forall (fun c => is_avatar_call c = false) l.
Proof.
  intros w'.
  assert (keeps (fun p => (photo_id p, photo_mxc p, avatar_set p))
            (update_info env config source info false)) as Hk.
  { apply update_info_keeps; try (intros ? []; reflexivity). discriminate. }
  specialize (Hk w _ _ (surjective_pairing _)).
  fold w' in Hk. simpl in Hk. injection Hk as -> -> ->.
  repeat split.
  assert (emits (fun c => is_avatar_call c = false)
            (update_info env config source info false)) as He.
  { unfold update_info, update_info_try, save, _update_name.
    repeat first [ apply update_info_handler_emits | emits_step ]. }
  exact (He w _ _ (surjective_pairing _)).
Qed.

(** X9: given a source, [update_info] does not raise: it returns the
    puppet as it stands when the call ends. *)
Theorem update_info_with_source_returns {CR : ContainerRepr} (env : Env)
    (config : Config) (u : User) (info : pyval) (update_avatar : bool)
    (w : World) :
  exists w', update_info env config (Some u) info update_avatar w
             = (Ok (self w'), w').
Proof. apply update_info_returns. Qed.

(** X10: whenever the info is not empty, [update_info] ends with
    [_last_info_sync] at the time of the call, also when it raises. *)
Theorem update_info_last_info_sync {CR : ContainerRepr} (env : Env)
    (config : Config) (source : option User) (info : pyval)
    (update_avatar : bool) (w : World) :
  PyVal.truthy info = true ->
  _last_info_sync (self (update_info env config source info update_avatar w).2)
  = Some (now env).
Proof.
  intros Hi. rewrite update_info_truthy by exact Hi.
  match goal with
  | |- context [(?m ≫= ?f) ?w0] =>
      assert (keeps _last_info_sync (m ≫= f)) as Hk
  end.
  { unfold update_info_try, _update_name.
    repeat first
      [ apply keeps_set_self; intros []; reflexivity
      | apply _update_photo_keeps_with; intros ? []; reflexivity
      | apply save_keeps
      | apply update_info_handler_keeps
      | keeps_step ]. }
  rewrite (Hk _ _ _ (surjective_pairing _)). reflexivity.
Qed.

Lemma update_info_last_info_sync_witness :
  _last_info_sync
    (self (update_info (CR:=Sample.repr) Sample.env_no_download Sample.config
             None Sample.info true Sample.world).2)
  = Some 1700000000.
Proof.
  apply (update_info_last_info_sync (CR:=Sample.repr) Sample.env_no_download
           Sample.config None Sample.info true Sample.world).
  reflexivity.
Defined.

Lemma update_info_try_saved {CR : ContainerRepr} env config info update_avatar
    w r w' :
  update_info_try env config info update_avatar w = (r, w') ->
  exists l, calls w' = calls w ++ l
            /\ forall row, Save row ∈ l -> row = persisted (self w').
Proof.
  assert (forall l1 l2 row,
            Forall (fun c => is_save c = false) l1 ->
            Forall (fun c => is_save c = false) l2 ->
            Save row ∈ l1 ++ l2 -> False) as Hno.
  { intros l1 l2 row F1 F2 Hin.
    apply elem_of_app in Hin as [Hin|Hin];
      [rewrite Forall_forall in F1; specialize (F1 _ Hin)
      |rewrite Forall_forall in F2; specialize (F2 _ Hin)]; discriminate. }
  intros Ht. unfold update_info_try in Ht.
  apply bind_inv in Ht as [(c & w1 & H1 & H2)|(e & H1 & _)].
  2:{ destruct (_update_name_emits _ _ _ _ _ _ H1) as (l1 & E1 & F1).
      exists l1. split; [exact E1|]. intros row Hin. exfalso.
      apply (Hno l1 [] row); [|constructor|rewrite app_nil_r; exact Hin].
      eapply Forall_impl; [exact F1|]. intros ? [? _]. assumption. }
  destruct (_update_name_emits _ _ _ _ _ _ H1) as (l1 & E1 & F1).
  assert (Forall (fun c => is_save c = false) l1) as F1'
    by (eapply Forall_impl; [exact F1|]; intros ? [? _]; assumption).
  apply bind_inv in H2 as [(c' & w2 & H2 & H3)|(e & H2 & _)].
  - assert (exists l2, calls w2 = calls w1 ++ l2
                       /\ Forall (fun c => is_save c = false) l2)
      as (l2 & E2 & F2).
    { revert H2.
      match goal with |- ?m w1 = _ -> _ =>
        assert (emits (fun c => is_save c = false) m) as He
      end.
      { repeat first [ apply _update_photo_emits | emits_step ]. }
      apply He. }
    destruct c'.
    + unfold save, perform, get_self, mbind, M_bind in H3.
      injection H3 as <- <-. simpl.
      exists (l1 ++ l2 ++ [Save (persisted (self w2))]).
      split; [rewrite E2, E1, <- !app_assoc; reflexivity|].
      intros row Hin. rewrite app_assoc in Hin.
      apply elem_of_app in Hin as [Hin|Hin];
        [exfalso; exact (Hno l1 l2 row F1' F2 Hin)|].
      apply list_elem_of_singleton in Hin. congruence.
    + injection H3 as <- <-. exists (l1 ++ l2).
      split; [rewrite E2, E1, app_assoc; reflexivity|].
      intros row Hin. exfalso. exact (Hno l1 l2 row F1' F2 Hin).
  - assert (exists l2, calls w' = calls w1 ++ l2
                       /\ Forall (fun c => is_save c = false) l2)
      as (l2 & E2 & F2).
    { revert H2.
      match goal with |- ?m w1 = _ -> _ =>
        assert (emits (fun c => is_save c = false) m) as He
      end.
      { repeat first [ apply _update_photo_emits | emits_step ]. }
      apply He. }
    exists (l1 ++ l2). split; [rewrite E2, E1, app_assoc; reflexivity|].
    intros row Hin. exfalso. exact (Hno l1 l2 row F1' F2 Hin).
Qed.

(** X11: a row that [update_info] saves during a call is the puppet as it
    stands when the call ends: nothing is changed after the save. *)
Theorem update_info_saves_final_state {CR : ContainerRepr} (env : Env)
    (config : Config) (source : option User) (info : pyval)
    (update_avatar : bool) (w : World) :
  let w' := (update_info env config source info update_avatar w).2 in
  exists l, calls w' = calls w ++ l
            /\ forall row, Save row ∈ l -> row = persisted (self w').
Proof.
  intros w'. subst w'.
  destruct (PyVal.truthy info) eqn:Hi.
  2:{ rewrite update_info_falsy by exact Hi. exists []. simpl.
      rewrite app_nil_r. split; [reflexivity|]. intros row Hin.
      apply elem_of_nil in Hin. contradiction. }
  rewrite update_info_truthy by exact Hi.
  set (w0 := {| self := with_last_info_sync (Some (now env)) (self w);
                log := log w; calls := calls w |}).
  destruct (update_info_try env config info update_avatar w0) as [r1 w1] eqn:Ht.
  destruct (update_info_try_saved _ _ _ _ _ _ _ Ht) as (l & E & Hl).
  assert (exists r2 w2,
            (try_except (update_info_try env config info update_avatar)
               (update_info_handler source);; get_self) w0 = (r2, w2)
            /\ self w2 = self w1 /\ calls w2 = calls w1)
    as (r2 & w2 & -> & Hs & Hc).
  { unfold try_except, mbind, M_bind. rewrite Ht.
    destruct r1 as [[]|e]; simpl; [eauto|].
    destruct source as [u|]; simpl; eauto. }
  simpl. exists l. rewrite Hc, Hs. split; [exact E | exact Hl].
Qed.

Lemma update_info_saves_final_state_witness :
  let w' := (update_info (CR:=Sample.repr) Sample.env Sample.config
               (Some Sample.user) Sample.info true Sample.world).2 in
  Save (persisted (self w')) ∈ calls w'
  /\ exists l, calls w' = calls Sample.world ++ l
               /\ forall row, Save row ∈ l -> row = persisted (self w').
Proof.
  intros w'. split.
  - vm_compute. do 4 right. left.
  - exact (update_info_saves_final_state (CR:=Sample.repr) Sample.env
             Sample.config (Some Sample.user) Sample.info true Sample.world).
Defined.

(** ** The photo identifier of a URL *)

Module ReFacts.

Local Open Scope nat_scope.

Lemma run_lazy_now ts s pos opened g r :
  Re.run ts s pos opened g = Some r ->
  Re.run (Re.LazyAny :: ts) s pos opened g = Some r.
Proof. intros Hr. destruct s; simpl; rewrite Hr; reflexivity. Qed.

Lemma strip_app (p s : string) : Re.strip p (p +:+ s) = Some s.
Proof.
  induction p as [|c p IH]; [reflexivity|].
  rewrite PyFacts.app_cons. simpl. rewrite Ascii.eqb_refl. exact IH.
Qed.

(** The lazy [.*?] in front of a literal that starts with a slash runs
    over plain text without matching. *)
Lemma run_lazy_plain l ts a s pos opened g :
  plain a = true ->
  Re.run (Re.LazyAny :: Re.Chars (String slash l) :: ts) (a +:+ s) pos opened g
  = Re.run (Re.LazyAny :: Re.Chars (String slash l) :: ts) s
      (pos + String.length a) opened g.
Proof.
  revert pos. induction a as [|c a IH]; intros pos Ha.
  - change ("" +:+ s) with s. simpl String.length. rewrite Nat.add_0_r.
    reflexivity.
  - simpl in Ha. apply andb_prop in Ha as [Hc Ha].
    apply andb_prop in Hc as [Hslash Hnl].
    apply negb_true_iff in Hslash, Hnl.
    rewrite PyFacts.app_cons.
    transitivity
      (Re.run (Re.LazyAny :: Re.Chars (String slash l) :: ts) (a +:+ s)
         (S pos) opened g).
    + cbn [Re.run Re.strip]. rewrite (Ascii.eqb_sym slash c), Hslash, Hnl.
      destruct (a +:+ s); reflexivity.
    + rewrite IH by exact Ha. simpl String.length. f_equal. lia.
Qed.

Lemma run_chars l ts s pos opened g :
  Re.run (Re.Chars l :: ts) (l +:+ s) pos opened g
  = Re.run ts s (pos + String.length l) opened g.
Proof. cbn [Re.run]. rewrite strip_app. reflexivity. Qed.

Lemma run_open ts s pos opened g :
  Re.run (Re.Open :: ts) s pos opened g = Re.run ts s pos pos g.
Proof. reflexivity. Qed.

Lemma run_close ts s pos opened g :
  Re.run (Re.Close :: ts) s pos opened g
  = Re.run ts s pos opened (Some (opened, pos)).
Proof. reflexivity. Qed.

(** A lazy group in front of a literal that starts with a slash takes the
    plain text up to the literal. *)
Lemma run_group_plain l n s pos opened g :
  plain n = true ->
  Re.run [Re.LazyAny; Re.Close; Re.Chars (String slash l); Re.LazyAny]
    (n +:+ String slash l +:+ s) pos opened g
  = Some (Some (opened, pos + String.length n)).
Proof.
  revert pos. induction n as [|c n IH]; intros pos Hn.
  - change ("" +:+ String slash l +:+ s) with (String slash l +:+ s).
    apply run_lazy_now. rewrite run_close, run_chars.
    simpl String.length. rewrite Nat.add_0_r.
    apply run_lazy_now. reflexivity.
  - simpl in Hn. apply andb_prop in Hn as [Hc Hn].
    apply andb_prop in Hc as [Hslash Hnl].
    apply negb_true_iff in Hslash, Hnl.
    rewrite (PyFacts.app_cons c n).
    transitivity
      (Re.run [Re.LazyAny; Re.Close; Re.Chars (String slash l); Re.LazyAny]
         (n +:+ String slash l +:+ s) (S pos) opened g).
    + cbn [Re.run Re.strip]. rewrite (Ascii.eqb_sym slash c), Hslash, Hnl.
      destruct (n +:+ String slash l +:+ s); reflexivity.
    + rewrite IH by exact Hn. simpl String.length. do 3 f_equal. lia.
Qed.

End ReFacts.

(** X12: for a URL [https://HOST/image/ID/profile-REST] whose [HOST] and
    [ID] hold neither a slash nor a newline, [photo_id_re] matches and its
    group is [ID], whatever [REST] is. *)
Theorem photo_id_re_captures_id (host id rest : string) :
  plain host = true -> plain id = true ->
  let url := "https://" +:+ host +:+ "/image/" +:+ id +:+ "/profile-" +:+ rest in
  exists m, Re.match_ photo_id_re url = Some m
            /\ Re.group1 url m = Some id
            /\ match_root_url (PStr url) = Ok (Some id).
Proof.
  intros Hhost Hid url.
  set (a := (8 + String.length host + 7)%nat).
  set (b := (a + String.length id)%nat).
  assert (Re.match_ photo_id_re url = Some (Some (a, b))) as Hm.
  { unfold Re.match_, photo_id_re, url.
    rewrite ReFacts.run_chars.
    change "/image/" with (String slash "image/").
    rewrite ReFacts.run_lazy_plain by exact Hhost.
    erewrite ReFacts.run_lazy_now; [reflexivity|].
    rewrite ReFacts.run_chars, ReFacts.run_open.
    change "/profile-" with (String slash "profile-").
    rewrite ReFacts.run_group_plain by exact Hid. reflexivity. }
  assert (Re.group1 url (Some (a, b)) = Some id) as Hg.
  { assert (a = String.length ("https://" +:+ host +:+ "/image/")) as Ha
      by (unfold a; rewrite !PyFacts.length_app; simpl; lia).
    unfold Re.group1, url, b. rewrite Ha. f_equal.
    replace (String.length ("https://" +:+ host +:+ "/image/")
             + String.length id
             - String.length ("https://" +:+ host +:+ "/image/"))%nat
      with (String.length id) by lia.
    replace ("https://" +:+ host +:+ "/image/" +:+ id +:+ "/profile-" +:+ rest)
      with (("https://" +:+ host +:+ "/image/")
            +:+ id +:+ "/profile-" +:+ rest)
      by (rewrite !PyFacts.app_assoc; reflexivity).
    rewrite PyFacts.str_drop_app.
    apply PyFacts.str_take_app. }
  exists (Some (a, b)). split; [exact Hm|]. split; [exact Hg|].
  unfold match_root_url.
  assert (PyVal.truthy (PStr url) = true) as -> by reflexivity.
  rewrite Hm, Hg. reflexivity.
Qed.

Lemma photo_id_re_captures_id_witness :
  match_root_url (PStr Sample.root_url) = Ok (Some "ABC123").
Proof.
  pose proof (photo_id_re_captures_id "media.licdn.com" "ABC123"
                "displayphoto-shrink_" eq_refl eq_refl) as (m & _ & _ & H).
  exact H.
Defined.

(** ** Pushing an avatar *)

Lemma photo_due (pid : option string) (p : Puppet) :
  pid <> photo_id p \/ avatar_set p = false ->
  negb (bool_decide (pid = photo_id p)) || negb (avatar_set p) = true.
Proof.
  intros [Hc|Hc].
  - rewrite bool_decide_eq_false_2 by exact Hc. reflexivity.
  - rewrite Hc. apply orb_true_r.
Qed.

(** X13: when the picture gives no photo identifier (no root URL, a URL
    the pattern does not match, or an empty group) and an update is due,
    [_update_photo] downloads nothing: it stores the identifier, clears
    [photo_mxc] to the empty URI, sets that as avatar and reports a
    change; [avatar_set] tells whether setting it worked. *)
Theorem update_photo_without_photo (env : Env) (picture : pyval) (w : World)
    (pid : option string) :
  target_photo_id picture = Ok pid ->
  opt_truthy pid = false ->
  pid <> photo_id (self w) \/ avatar_set (self w) = false ->
  _update_photo env picture w
  = (Ok true,
     {| self := with_avatar_set
                  (match set_avatar_url env "" with
                   | Ok _ => true
                   | Raise _ => false
                   end)
                  (with_photo_mxc (Some "") (with_photo_id pid (self w)));
        log := log w ++ (match set_avatar_url env "" with
                         | Ok _ => []
                         | Raise _ => ["Failed to set avatar"]
                         end);
        calls := calls w ++ [SetAvatarUrl ""] |}).
Proof.
  intros (root & Hr & Hm)%target_photo_id_ok Ht Hc. unfold _update_photo.
  rewrite Hr, bind_lift_ok, Hm, bind_lift_ok, bind_get_self.
  rewrite (photo_due _ _ Hc), bind_set_self, Ht, bind_set_self, bind_get_self.
  cbn [self photo_mxc with_photo_mxc default from_option id].
  unfold_m. simpl.
  destruct (set_avatar_url env "") as [[]|e]; simpl.
  - rewrite app_nil_r. reflexivity.
  - reflexivity.
Qed.

Lemma update_photo_without_photo_witness :
  _update_photo Sample.env (PDict []) Sample.world
  = (Ok true,
     {| self := with_avatar_set true
                  (with_photo_mxc (Some "")
                     (with_photo_id None Sample.puppet));
        log := [];
        calls := [SetAvatarUrl ""] |}).
Proof.
  apply (update_photo_without_photo Sample.env (PDict []) Sample.world None).
  - reflexivity.
  - reflexivity.
  - left. discriminate.
Defined.

(** X14: when the picture gives a photo identifier, an update is due and
    the download and the upload work, [_update_photo] fetches the root URL
    followed by the path segment of the first artifact, uploads what it
    got under the sniffed type, stores identifier and content URI, sets
    the avatar and reports a change; [avatar_set] tells whether setting
    it worked. *)
Theorem update_photo_applied (env : Env) (picture : pyval) (w : World)
    (pid : option string) (root artifacts artifact segment : pyval)
    (url mime mxc : string) (response : Response) :
  PyVal.get picture "rootUrl" PNone = Ok root ->
  match_root_url root = Ok pid ->
  opt_truthy pid = true ->
  pid <> photo_id (self w) \/ avatar_set (self w) = false ->
  PyVal.getitem picture "artifacts" = Ok artifacts ->
  PyVal.getitem0 artifacts = Ok artifact ->
  PyVal.getitem artifact "fileIdentifyingUrlPathSegment" = Ok segment ->
  PyVal.str_add (as_str root) segment = Ok url ->
  requests_get env url = Ok response ->
  ok response = true ->
  magic_from_buffer env (content response) = Ok mime ->
  upload_media env (content response) mime = Ok mxc ->
  _update_photo env picture w
  = (Ok true,
     {| self := with_avatar_set
                  (match set_avatar_url env mxc with
                   | Ok _ => true
                   | Raise _ => false
                   end)
                  (with_photo_mxc (Some mxc) (with_photo_id pid (self w)));
        log := log w ++ (match set_avatar_url env mxc with
                         | Ok _ => []
                         | Raise _ => ["Failed to set avatar"]
                         end);
        calls := calls w ++ [RequestsGet url;
                             UploadMedia (content response) mime;
                             SetAvatarUrl mxc] |}).
Proof.
  intros Hr Hm Ht Hc Ha Ha0 Hs Hu Hg Hok Hmime Hup. unfold _update_photo.
  rewrite Hr, bind_lift_ok, Hm, bind_lift_ok, bind_get_self.
  rewrite (photo_due _ _ Hc), bind_set_self, Ht, Ha.
  unfold reupload_avatar. unfold_m. simpl.
  rewrite Ha0, Hs, Hu, Hg, Hok. simpl. rewrite Hmime, Hup. simpl.
  destruct (set_avatar_url env mxc) as [[]|e]; simpl.
  - rewrite app_nil_r, <- !app_assoc. reflexivity.
  - rewrite <- !app_assoc. reflexivity.
Qed.

Lemma update_photo_applied_witness :
  exists picture,
    vector_image Sample.info = Ok picture
    /\ _update_photo Sample.env picture Sample.world
       = (Ok true,
          {| self := with_avatar_set true
                       (with_photo_mxc (Some "mxc://example.org/abc")
                          (with_photo_id (Some "ABC123") Sample.puppet));
             log := [];
             calls := [RequestsGet
                         (Sample.root_url +:+ "100_100");
                       UploadMedia "PNG" "image/png";
                       SetAvatarUrl "mxc://example.org/abc"] |}).
Proof.
  eexists. split; [reflexivity|].
  eapply (update_photo_applied Sample.env _ Sample.world (Some "ABC123")
            (PStr Sample.root_url) _ _ (PStr "100_100")
            (Sample.root_url +:+ "100_100") "image/png"
            "mxc://example.org/abc" {| ok := true; content := "PNG" |});
    try reflexivity.
  left. discriminate.
Defined.

(** ** Registry: lookups one after the other *)

Lemma add_to_cache_table r R : table (_add_to_cache r R) = table R.
Proof. unfold _add_to_cache. destruct (heap R !! r); reflexivity. Qed.

Lemma add_to_cache_custom_none r R p :
  heap R !! r = Some p -> opt_truthy (custom_mxid p) = false ->
  by_custom_mxid (_add_to_cache r R) = by_custom_mxid R.
Proof. unfold _add_to_cache. intros -> ->. reflexivity. Qed.

Lemma get_by_li_member_urn_hit k c R r :
  by_li_member_urn R !! k = Some r ->
  get_by_li_member_urn k c R = (Ok (Some r), record [CacheRead k] R).
Proof. intros Hc. unfold get_by_li_member_urn. simpl. rewrite Hc. reflexivity. Qed.

(** X15: with [create=True], on a key that is cached, or that the store
    does not have, or whose row in the store has no custom mxid (none, or
    the empty string), [get_by_li_member_urn] returns an object; the
    object is then cached under the key, and a later call, with or without
    [create], returns the same object from the cache without going to the
    store. *)
Theorem get_by_li_member_urn_then_cached (k : string) (c : bool)
    (R : Registry) :
  (by_li_member_urn R !! k = None ->
   forall row, store_load k (table R) = Some row ->
               opt_truthy (custom_mxid row) = false) ->
  let R' := (get_by_li_member_urn k true R).2 in
  exists r, (get_by_li_member_urn k true R).1 = Ok (Some r)
            /\ by_li_member_urn R' !! k = Some r
            /\ get_by_li_member_urn k c R'
               = (Ok (Some r), record [CacheRead k] R').
Proof.
  intros Hrow R'.
  assert (exists r, (get_by_li_member_urn k true R).1 = Ok (Some r)
                    /\ by_li_member_urn R' !! k = Some r) as (r & Hr & Hc).
  { subst R'. unfold get_by_li_member_urn.
    cbn [segment]. destruct (by_li_member_urn R !! k) as [r|] eqn:Hk.
    - cbn [segment result_of fst snd]. exists r. split; [reflexivity|].
      exact Hk.
    - cbn [segment record table heap].
      destruct (store_load k (table R)) as [row|] eqn:Hl.
      + unfold construct. rewrite (Hrow eq_refl row eq_refl).
        cbn [segment result_of fst snd]. eexists. split; [reflexivity|].
        erewrite TasksFacts.add_to_cache_by_urn
          by (cbn [allocate heap]; apply list_lookup_middle; reflexivity).
        rewrite (TasksFacts.store_load_urn _ _ _ Hl). apply lookup_insert_eq.
      + cbn [segment record allocate heap].
        rewrite list_lookup_middle by reflexivity.
        cbn [result_of fst snd]. eexists. split; [reflexivity|].
        erewrite TasksFacts.add_to_cache_by_urn
          by (cbn [store_insert heap]; apply list_lookup_middle; reflexivity).
        apply lookup_insert_eq. }
  exists r. split; [exact Hr|]. split; [exact Hc|].
  apply get_by_li_member_urn_hit, Hc.
Qed.

Lemma get_by_li_member_urn_then_cached_witness :
  let R := {| heap := []; by_li_member_urn := ∅; by_custom_mxid := ∅;
              table := [Sample.puppet]; accesses := [] |} in
  exists r, (get_by_li_member_urn "ACoAAB" true R).1 = Ok (Some r)
            /\ (get_by_li_member_urn "ACoAAB" false
                  (get_by_li_member_urn "ACoAAB" true R).2).1 = Ok (Some r).
Proof.
  intros R.
  destruct (get_by_li_member_urn_then_cached "ACoAAB" false R)
    as (r & H1 & _ & H3).
  - intros _ row Hrow. vm_compute in Hrow. injection Hrow as <-. reflexivity.
  - exists r. split; [exact H1|]. rewrite H3. reflexivity.
Defined.

(** X16: with [create=False], [get_by_li_member_urn] writes nothing to the
    store, and it returns [None] exactly when neither the cache nor the
    store has the key; in that case no object is built and the caches are
    left alone. *)
Theorem get_by_li_member_urn_without_create (k : string) (R : Registry) :
  let res := (get_by_li_member_urn k false R).1 in
  let R' := (get_by_li_member_urn k false R).2 in
  table R' = table R
  /\ (res = Ok None <->
      by_li_member_urn R !! k = None /\ store_load k (table R) = None)
  /\ (res = Ok None ->
      heap R' = heap R /\ by_li_member_urn R' = by_li_member_urn R
      /\ by_custom_mxid R' = by_custom_mxid R).
Proof.
  intros res R'. subst res R'. unfold get_by_li_member_urn. cbn [segment].
  destruct (by_li_member_urn R !! k) as [r|] eqn:Hk.
  - cbn [segment result_of fst snd record table].
    split; [reflexivity|]. split; [|discriminate].
    split; [discriminate | intros [? _]; discriminate].
  - cbn [segment record table heap].
    destruct (store_load k (table R)) as [row|] eqn:Hl.
    + destruct (construct row) as [puppet|e];
        cbn [segment result_of fst snd].
      * split; [rewrite add_to_cache_table; reflexivity|].
        split; [|discriminate].
        split; [discriminate | intros [_ ?]; discriminate].
      * split; [reflexivity|]. split; [|discriminate].
        split; [discriminate | intros [_ ?]; discriminate].
    + cbn [segment result_of fst snd]. repeat split; reflexivity.
Qed.

Lemma get_by_li_member_urn_without_create_witness :
  let R := {| heap := []; by_li_member_urn := ∅; by_custom_mxid := ∅;
              table := [Sample.puppet]; accesses := [] |} in
  (get_by_li_member_urn "ACoAAC" false R).1 = Ok None
  /\ heap (get_by_li_member_urn "ACoAAC" false R).2 = heap R.
Proof.
  intros R.
  pose proof (get_by_li_member_urn_without_create "ACoAAC" R)
    as (_ & [_ Hnone] & Hsame).
  specialize (Hnone (conj eq_refl eq_refl)).
  split; [exact Hnone | exact (proj1 (Hsame Hnone))].
Defined.

(** X17: on a key that is not cached, a row of the store that has no
    custom mxid (none, or the empty string) is loaded into a new object,
    which is cached and returned; the store is not written and no puppet
    is constructed afresh. *)
Theorem get_by_li_member_urn_loads (k : string) (c : bool) (R : Registry)
    (row : Puppet) :
  by_li_member_urn R !! k = None ->
  store_load k (table R) = Some row ->
  opt_truthy (custom_mxid row) = false ->
  let R' := (get_by_li_member_urn k c R).2 in
  (get_by_li_member_urn k c R).1 = Ok (Some (length (heap R)))
  /\ heap R' = heap R ++ [row]
  /\ li_member_urn row = k
  /\ by_li_member_urn R' = <[k := length (heap R)]> (by_li_member_urn R)
  /\ table R' = table R
  /\ accesses R' = accesses R ++ [CacheRead k; StoreLoad k].
Proof.
  intros Hk Hl Hcm R'. subst R'. unfold get_by_li_member_urn. cbn [segment].
  rewrite Hk. cbn [segment record table heap]. rewrite Hl.
  unfold construct. rewrite Hcm.
  cbn [segment result_of fst snd].
  pose proof (TasksFacts.store_load_urn _ _ _ Hl) as Hurn.
  rewrite TasksFacts.add_to_cache_heap, TasksFacts.add_to_cache_accesses.
  erewrite TasksFacts.add_to_cache_by_urn
    by (cbn [allocate heap]; apply list_lookup_middle; reflexivity).
  rewrite Hurn. repeat split.
  rewrite add_to_cache_table. reflexivity.
Qed.

Lemma get_by_li_member_urn_loads_witness :
  let R := {| heap := []; by_li_member_urn := ∅; by_custom_mxid := ∅;
              table := [Sample.puppet]; accesses := [] |} in
  (get_by_li_member_urn "ACoAAB" false R).1 = Ok (Some 0%nat)
  /\ heap (get_by_li_member_urn "ACoAAB" false R).2 = [Sample.puppet].
Proof.
  intros R.
  pose proof (get_by_li_member_urn_loads "ACoAAB" false R Sample.puppet
                eq_refl eq_refl eq_refl) as (H1 & H2 & _).
  split; [exact H1 | exact H2].
Defined.

(** X18: on a key that neither the cache nor the store has,
    [create=True] builds a puppet with no name, no photo and all flags
    false, inserts exactly that row into the store, caches the object and
    returns it. *)
Theorem get_by_li_member_urn_creates (k : string) (R : Registry) :
  by_li_member_urn R !! k = None ->
  store_load k (table R) = None ->
  let fresh := new_puppet k None None None false false in
  let R' := (get_by_li_member_urn k true R).2 in
  (get_by_li_member_urn k true R).1 = Ok (Some (length (heap R)))
  /\ heap R' = heap R ++ [fresh]
  /\ table R' = table R ++ [fresh]
  /\ by_li_member_urn R' = <[k := length (heap R)]> (by_li_member_urn R)
  /\ by_custom_mxid R' = by_custom_mxid R
  /\ accesses R' = accesses R ++ [CacheRead k; StoreLoad k; Construct k;
                                  StoreInsert k].
Proof.
  intros Hk Hl fresh R'. subst R'. unfold get_by_li_member_urn. cbn [segment].
  rewrite Hk. cbn [segment record table heap]. rewrite Hl.
  cbn [segment record allocate heap].
  rewrite list_lookup_middle by reflexivity.
  cbn [result_of fst snd].
  rewrite TasksFacts.add_to_cache_heap, TasksFacts.add_to_cache_accesses.
  erewrite TasksFacts.add_to_cache_by_urn
    by (cbn [store_insert heap]; apply list_lookup_middle; reflexivity).
  cbn [store_insert heap accesses by_li_member_urn li_member_urn persisted
       new_puppet].
  repeat split.
  - rewrite add_to_cache_table. reflexivity.
  - rewrite (add_to_cache_custom_none _ _
               (new_puppet k None None None false false));
      [reflexivity| |reflexivity].
    cbn [store_insert record allocate heap]. apply list_lookup_middle.
    reflexivity.
  - cbn [record allocate accesses]. rewrite <- !app_assoc. reflexivity.
Qed.

Lemma get_by_li_member_urn_creates_witness :
  let R := {| heap := []; by_li_member_urn := ∅; by_custom_mxid := ∅;
              table := [Sample.puppet]; accesses := [] |} in
  (get_by_li_member_urn "ACoAAC" true R).1 = Ok (Some 0%nat)
  /\ table (get_by_li_member_urn "ACoAAC" true R).2
     = [Sample.puppet; new_puppet "ACoAAC" None None None false false].
Proof.
  intros R.
  pose proof (get_by_li_member_urn_creates "ACoAAC" R eq_refl eq_refl)
    as (H1 & _ & H3 & _).
  split; [exact H1 | exact H3].
Defined.

(** X19: looking a puppet up by the mxid of its key is looking it up by
    the key, except for the empty key, whose mxid gives [None] and leaves
    the registry alone. *)
Theorem get_by_mxid_get_mxid_from_id (config : Config) (k : string)
    (create : bool) (R : Registry) :
  get_by_mxid config (get_mxid_from_id config k) create R
  = if decide (k = "") then (Ok None, R)
    else get_by_li_member_urn k create R.
Proof.
  unfold get_by_mxid, get_id_from_mxid, get_mxid_from_id.
  rewrite parse_format_full. unfold Py.str_eqb.
  destruct (decide (k = "")) as [->|Hk]; [reflexivity|].
  apply String.eqb_neq in Hk. rewrite Hk. reflexivity.
Qed.



(** ** Registry: the getters by custom mxid *)


(** X20: [get_by_custom_mxid] never creates a puppet and never writes the
    store; it returns [None] exactly when neither the cache by custom mxid
    nor the store knows the mxid, and then leaves the registry alone. *)
Theorem get_by_custom_mxid_never_creates (mxid : string) (R : Registry) :
  let res := (get_by_custom_mxid mxid R).1 in
  let R' := (get_by_custom_mxid mxid R).2 in
  table R' = table R
  /\ accesses R' = accesses R
  /\ (res = Ok None <->
      by_custom_mxid R !! mxid = None
      /\ store_load_custom mxid (table R) = None)
  /\ (res = Ok None -> R' = R).
Proof.
  intros res R'. subst res R'. unfold get_by_custom_mxid.
  destruct (by_custom_mxid R !! mxid) as [r|] eqn:Hc.
  - cbn [fst snd]. repeat split; try discriminate.
    intros [? _]. discriminate.
  - destruct (store_load_custom mxid (table R)) as [row|] eqn:Hl.
    + destruct (construct row) as [puppet|e]; cbn [fst snd].
      * rewrite add_to_cache_table, TasksFacts.add_to_cache_accesses.
        repeat split; try discriminate. intros [_ ?]. discriminate.
      * repeat split; try discriminate. intros [_ ?]. discriminate.
    + cbn [fst snd]. repeat split; reflexivity.
Qed.

Lemma get_by_custom_mxid_never_creates_witness :
  get_by_custom_mxid "@ada:example.org"
    {| heap := []; by_li_member_urn := ∅; by_custom_mxid := ∅;
       table := [Sample.puppet]; accesses := [] |}
  = (Ok None,
     {| heap := []; by_li_member_urn := ∅; by_custom_mxid := ∅;
        table := [Sample.puppet]; accesses := [] |}).
Proof.
  pose proof (get_by_custom_mxid_never_creates "@ada:example.org"
                {| heap := []; by_li_member_urn := ∅; by_custom_mxid := ∅;
                   table := [Sample.puppet]; accesses := [] |})
    as (_ & _ & [_ Hnone] & Hsame).
  specialize (Hnone (conj eq_refl eq_refl)).
  apply injective_projections; [exact Hnone | exact (Hsame Hnone)].
Defined.








(** ** Concurrent callers: what else every schedule keeps *)

Module ScheduleFacts.
Import Tasks.

Local Open Scope nat_scope.

Lemma run_app (s1 s2 : list nat) (S : System) :
  run (s1 ++ s2) S = run s2 (run s1 S).
Proof. revert S. induction s1 as [|i s1 IH]; intros S; [reflexivity|]. apply IH. Qed.

(** A resumption leaves the cached objects where they are. *)
Lemma resume_cached i S S' k r :
  invariant S -> resume i S = Some S' ->
  by_li_member_urn (registry S) !! k = Some r ->
  by_li_member_urn (registry S') !! k = Some r.
Proof.
  intros HI Hr Hc.
  apply TasksFacts.resume_inv in Hr
    as [(k0 & Hi & Hl & ->)|(k0 & a & a' & R' & Hi & Ha & Hs & ->)];
    [exact Hc|].
  cbn [registry].
  apply TasksFacts.segment_inv in Hs; [|exact Ha].
  destruct Hs as [r0 Hhit|Hmiss|row Hrow Hcm|row Hrow Hcm| |r0 p Hp|r0 Hp];
    try exact Hc.
  - assert (by_li_member_urn (registry S) !! k0 = None) as Hnone
      by (eapply (inv_miss S HI); eauto).
    erewrite TasksFacts.add_to_cache_by_urn
      by (cbn [allocate heap]; apply list_lookup_middle; reflexivity).
    rewrite Hrow, lookup_insert_ne; [exact Hc | congruence].
  - assert (by_li_member_urn (registry S) !! k0 = None) as Hnone
      by (eapply (inv_miss S HI); eauto).
    destruct (inv_pending S HI _ _ _ Hi) as (p' & Hp' & Hk).
    erewrite TasksFacts.add_to_cache_by_urn by (cbn [store_insert heap]; exact Hp).
    assert (p' = p) as -> by congruence.
    rewrite Hk, lookup_insert_ne; [exact Hc | congruence].
Qed.

Lemma run_cached schedule S k r :
  invariant S ->
  by_li_member_urn (registry S) !! k = Some r ->
  by_li_member_urn (registry (run schedule S)) !! k = Some r.
Proof.
  revert S. induction schedule as [|i rest IH]; intros S HI Hc; [exact Hc|].
  simpl. destruct (resume i S) as [S'|] eqn:Hr; simpl.
  - apply IH; [eapply TasksFacts.invariant_resume; eauto|].
    eapply resume_cached; eauto.
  - apply IH; assumption.
Qed.

Lemma store_load_None_iff k rows :
  store_load k rows = None <-> k ∉ li_member_urn <$> rows.
Proof.
  unfold store_load. induction rows as [|row rows IH]; simpl.
  - split; [intros _; apply not_elem_of_nil | reflexivity].
  - rewrite not_elem_of_cons, <- IH.
    destruct (decide (li_member_urn row = k)) as [Heq|Hne].
    + rewrite bool_decide_eq_true_2 by exact Heq.
      split; [discriminate | intros [? _]; congruence].
    + rewrite bool_decide_eq_false_2 by exact Hne.
      split; [intros ?; split; [congruence | assumption] | intros [_ ?]; assumption].
Qed.

Lemma store_invariant_resume i S S' :
  invariant S -> store_invariant S -> resume i S = Some S' ->
  store_invariant S'.
Proof.
  intros HI [Hnd Hins] Hr.
  apply TasksFacts.resume_inv in Hr
    as [(k0 & Hi & Hl & ->)|(k0 & a & a' & R' & Hi & Ha & Hs & ->)].
  - split; [exact Hnd|]. cbn [registry tasks]. intros j k r Hj.
    apply list_lookup_insert_Some in Hj as [(_ & [=] & _)|(_ & Hj)].
    eapply Hins, Hj.
  - pose proof Hs as Hseg.
    apply TasksFacts.segment_inv in Hs; [|exact Ha].
    destruct Hs as [r0 Hhit|Hmiss|row Hrow Hcm|row Hrow Hcm| |r0 p Hp|r0 Hp];
      unfold store_invariant; cbn [registry tasks].
    + split; [exact Hnd|]. intros j k r Hj.
      apply list_lookup_insert_Some in Hj as [(_ & [=] & _)|(_ & Hj)].
      eapply Hins, Hj.
    + split; [exact Hnd|]. intros j k r Hj.
      apply list_lookup_insert_Some in Hj as [(_ & [=] & _)|(_ & Hj)].
      eapply Hins, Hj.
    + rewrite add_to_cache_table. cbn [allocate table].
      split; [exact Hnd|]. intros j k r Hj.
      apply list_lookup_insert_Some in Hj as [(_ & [=] & _)|(_ & Hj)].
      eapply Hins, Hj.
    + split; [exact Hnd|]. intros j k r Hj.
      apply list_lookup_insert_Some in Hj as [(_ & [=] & _)|(_ & Hj)].
      eapply Hins, Hj.
    + cbn [record allocate table].
      split; [exact Hnd|]. intros j k r Hj.
      apply list_lookup_insert_Some in Hj as [(_ & Heq & _)|(_ & Hj)].
      * injection Heq as <- <-.
        cbn [segment] in Hseg.
        destruct (store_load k0 (table (registry S))) as [row|];
          [destruct (construct row); discriminate|].
        reflexivity.
      * eapply Hins, Hj.
    + destruct (inv_pending S HI _ _ _ Hi) as (p' & Hp' & Hk).
      assert (p' = p) as -> by congruence.
      pose proof (Hins _ _ _ Hi) as Hfree.
      rewrite add_to_cache_table. cbn [store_insert table].
      split.
      * rewrite fmap_app. cbn [fmap list_fmap li_member_urn persisted].
        apply NoDup_app. split; [exact Hnd|]. split.
        -- intros x Hx Hin. apply list_elem_of_singleton in Hin. subst x.
           rewrite Hk in Hx. apply store_load_None_iff in Hfree. contradiction.
        -- apply NoDup_singleton.
      * intros j k r Hj.
        apply list_lookup_insert_Some in Hj as [(_ & [=] & _)|(Hne & Hj)].
        pose proof (Hins _ _ _ Hj) as Hfree'.
        apply store_load_None_iff. rewrite fmap_app.
        cbn [fmap list_fmap li_member_urn persisted].
        apply store_load_None_iff in Hfree'.
        rewrite not_elem_of_app. split; [exact Hfree'|].
        rewrite Hk. intros Hin. apply list_elem_of_singleton in Hin. subst k.
        apply Hne. eapply (TasksFacts.exclusive S HI); eauto.
    + split; [exact Hnd|]. intros j k r Hj.
      apply list_lookup_insert_Some in Hj as [(_ & [=] & _)|(_ & Hj)].
      eapply Hins, Hj.
Qed.

Lemma store_invariant_run schedule S :
  invariant S -> store_invariant S -> store_invariant (run schedule S).
Proof.
  revert S. induction schedule as [|i rest IH]; intros S HI HJ; [exact HJ|].
  simpl. destruct (resume i S) as [S'|] eqn:Hr; simpl.
  - apply IH; [eapply TasksFacts.invariant_resume; eauto|].
    eapply store_invariant_resume; eauto.
  - apply IH; assumption.
Qed.

End ScheduleFacts.

(** X23: under every schedule, at most one caller per key is inside the
    body of [get_by_li_member_urn]: two callers of one key that have
    entered and not returned are the same caller. *)
Theorem callers_of_a_key_exclude_each_other (rows : list Puppet)
    (keys : list string) (schedule : list nat) :
  let S := Tasks.run schedule (Tasks.initial rows keys) in
  forall i j k a b,
    Tasks.tasks S !! i = Some (k, a) -> Tasks.running a = true ->
    Tasks.tasks S !! j = Some (k, b) -> Tasks.running b = true ->
    i = j.
Proof.
  intros S i j k a b.
  apply TasksFacts.exclusive, TasksFacts.invariant_run,
    TasksFacts.invariant_initial.
Qed.

Lemma callers_of_a_key_exclude_each_other_witness :
  let S := Tasks.run [0; 0; 1]%nat (Tasks.initial [] ["k"; "k"]) in
  Tasks.tasks S !! 0%nat = Some ("k", Loading)
  /\ forall b, Tasks.tasks S !! 1%nat = Some ("k", b) ->
               Tasks.running b = false.
Proof.
  intros S. split; [vm_compute; reflexivity|].
  intros b Hb. destruct (Tasks.running b) eqn:Hr; [|reflexivity].
  pose proof (callers_of_a_key_exclude_each_other [] ["k"; "k"]
                [0; 0; 1]%nat 0%nat 1%nat "k" Loading b
                ltac:(vm_compute; reflexivity) eq_refl Hb Hr).
  discriminate.
Defined.

(** X24: under every schedule, a lock is held only by a caller that is
    inside the body; once every caller has returned, no lock is held. *)
Theorem locks_are_given_back (rows : list Puppet) (keys : list string)
    (schedule : list nat) :
  let S := Tasks.run schedule (Tasks.initial rows keys) in
  (forall k i, Tasks.locks S !! k = Some i ->
     exists a, Tasks.tasks S !! i = Some (k, a) /\ Tasks.running a = true)
  /\ ((forall i k a, Tasks.tasks S !! i = Some (k, a) ->
                     Tasks.returned a = true) ->
      Tasks.locks S = ∅).
Proof.
  intros S.
  assert (Tasks.invariant S) as HI
    by apply TasksFacts.invariant_run, TasksFacts.invariant_initial.
  split; [exact (Tasks.inv_locked S HI)|].
  intros Hall. apply map_empty. intros k.
  destruct (Tasks.locks S !! k) as [i|] eqn:Hl; [|reflexivity].
  destruct (Tasks.inv_locked S HI _ _ Hl) as (a & Hi & Ha).
  specialize (Hall _ _ _ Hi). destruct a; discriminate.
Qed.

Lemma locks_are_given_back_witness :
  Tasks.locks (Tasks.run [0; 0; 1; 0; 0; 1; 1]%nat
                 (Tasks.initial [] ["k"; "k"])) = ∅.
Proof.
  apply (locks_are_given_back [] ["k"; "k"] [0; 0; 1; 0; 0; 1; 1]%nat).
  assert (Tasks.tasks (Tasks.run [0; 0; 1; 0; 0; 1; 1]%nat
                         (Tasks.initial [] ["k"; "k"]))
          = [("k", Returned (Some 0%nat)); ("k", Returned (Some 0%nat))])
    as -> by (vm_compute; reflexivity).
  intros [|[|i]] k a Hi; simpl in Hi; [| |discriminate];
    injection Hi as <- <-; reflexivity.
Defined.

(** X25: once a key is cached, no later part of any schedule changes the
    object cached for it. *)
Theorem cached_object_is_stable (rows : list Puppet) (keys : list string)
    (before after : list nat) (k : string) (r : nat) :
  let S1 := Tasks.run before (Tasks.initial rows keys) in
  let S2 := Tasks.run (before ++ after) (Tasks.initial rows keys) in
  by_li_member_urn (Tasks.registry S1) !! k = Some r ->
  by_li_member_urn (Tasks.registry S2) !! k = Some r.
Proof.
  intros S1 S2 Hc. subst S2. rewrite ScheduleFacts.run_app.
  apply ScheduleFacts.run_cached; [|exact Hc].
  apply TasksFacts.invariant_run, TasksFacts.invariant_initial.
Qed.

Lemma cached_object_is_stable_witness :
  by_li_member_urn
    (Tasks.registry (Tasks.run ([0; 0; 0; 0] ++ [1; 1; 1; 1])%nat
                       (Tasks.initial [] ["k"; "k"]))) !! "k"
  = Some 0%nat.
Proof.
  apply (cached_object_is_stable [] ["k"; "k"] [0; 0; 0; 0]%nat
           [1; 1; 1; 1]%nat "k" 0%nat).
  vm_compute. reflexivity.
Defined.

(** X26: if the rows of the store have distinct keys when the callers
    start, they have distinct keys under every schedule: no key is
    inserted twice, and no key that has a row is inserted. *)
Theorem store_keys_stay_distinct (rows : list Puppet) (keys : list string)
    (schedule : list nat) :
  NoDup (li_member_urn <$> rows) ->
  NoDup (li_member_urn <$>
           table (Tasks.registry (Tasks.run schedule (Tasks.initial rows keys)))).
Proof.
  intros Hnd.
  apply (ScheduleFacts.store_invariant_run schedule (Tasks.initial rows keys)).
  - apply TasksFacts.invariant_initial.
  - split; [exact Hnd|]. intros i k r Hi.
    unfold Tasks.initial in Hi. cbn [Tasks.tasks] in Hi.
    rewrite list_lookup_fmap in Hi.
    destruct (keys !! i); simpl in Hi; discriminate.
Qed.

Lemma store_keys_stay_distinct_witness :
  NoDup (li_member_urn <$>
           table (Tasks.registry
                    (Tasks.run [0; 1; 0; 0; 1; 0; 1]%nat
                       (Tasks.initial [Sample.puppet] ["k"; "k"])))).
Proof.
  apply (store_keys_stay_distinct [Sample.puppet] ["k"; "k"]
           [0; 1; 0; 0; 1; 0; 1]%nat).
  apply NoDup_singleton.
Defined.

(** X27: one caller alone, resumed four times, leaves the registry and
    holds the result that [get_by_li_member_urn] computes, and the lock is
    free again. *)
Theorem alone_is_get_by_li_member_urn (R : Registry) (k : string) :
  Tasks.run [0; 0; 0; 0]%nat (alone R k)
  = {| Tasks.registry := (get_by_li_member_urn k true R).2;
       Tasks.locks := ∅;
       Tasks.tasks := [(k, finished (get_by_li_member_urn k true R).1)] |}.
Proof.
  assert (delete k (<[k := 0%nat]> (∅ : gmap string nat)) = ∅) as Hlock
    by (rewrite delete_insert_eq; apply delete_empty).
  unfold alone, get_by_li_member_urn.
  cbn [Tasks.run Tasks.resume Tasks.tasks Tasks.locks Tasks.registry lookup
       list_lookup default from_option id].
  rewrite lookup_empty.
  cbn [Tasks.run Tasks.resume Tasks.tasks Tasks.locks Tasks.registry
       list_lookup lookup default from_option id Tasks.running insert
       list_insert].
  destruct (segment k true Entered R) as [a1 R1] eqn:H1.
  cbn [segment] in H1.
  destruct (by_li_member_urn R !! k) as [r|] eqn:Hc; injection H1 as <- <-.
  - cbn [Tasks.returned Tasks.run Tasks.resume Tasks.tasks Tasks.locks
         Tasks.registry list_lookup lookup default from_option id
         Tasks.running insert list_insert segment result_of fst snd
         finished].
    rewrite Hlock. reflexivity.
  - cbn [Tasks.returned Tasks.run Tasks.resume Tasks.tasks Tasks.locks
         Tasks.registry list_lookup lookup default from_option id
         Tasks.running insert list_insert].
    destruct (segment k true Loading (record [CacheRead k; StoreLoad k] R))
      as [a2 R2] eqn:H2.
    cbn [segment] in H2.
    destruct (store_load k (table (record [CacheRead k; StoreLoad k] R)))
      as [row|] eqn:Hl;
      [destruct (construct row) as [puppet|e]|]; injection H2 as <- <-.
    + cbn [Tasks.returned Tasks.run Tasks.resume Tasks.tasks Tasks.locks
           Tasks.registry list_lookup lookup default from_option id
           Tasks.running insert list_insert segment result_of fst snd
           finished].
      rewrite Hlock. reflexivity.
    + cbn [Tasks.returned Tasks.run Tasks.resume Tasks.tasks Tasks.locks
           Tasks.registry list_lookup lookup default from_option id
           Tasks.running insert list_insert segment result_of fst snd
           finished].
      rewrite Hlock. reflexivity.
    + cbn [Tasks.returned Tasks.run Tasks.resume Tasks.tasks Tasks.locks
           Tasks.registry list_lookup lookup default from_option id
           Tasks.running insert list_insert].
      destruct (segment k true _ _) as [a3 R3] eqn:H3.
      cbn [Tasks.returned result_of fst snd].
      cbn [segment] in H3.
      cbn [record allocate heap] in H3.
      rewrite list_lookup_middle in H3 by reflexivity.
      injection H3 as <- <-.
      cbn [Tasks.returned result_of finished]. rewrite Hlock. reflexivity.
Qed.



(** ** Concurrent callers of a key whose row has a custom mxid *)

Module RefusedFacts.
Import Tasks.





End RefusedFacts.


